(** * JSONScraperMultiGraph: a shallow embedding and its verification

    Source: [src/scrapegraphai/graphs/json_scraper_multi_graph.py].

    The class builds a two-node pipeline (an iterator node followed by a
    merge node), hands a two-key input mapping to the framework's execution
    engine and reads the key ["answer"] off the state the engine returns.

    Layout of the development:
    - [Py]: the fragment of the Python object model the class relies on
      (values, a store of mutable objects, [dict.get], [copy.deepcopy]);
    - [Framework]: the collaborators the class talks to (nodes, [BaseGraph],
      the execution engine as an external call);
    - [Class]: the three methods of the class, line by line;
    - [Reference]: what the framework does with a graph, as far as the
      specification says;
    - the facts proved about them. *)

From Stdlib Require Import ZArith Ascii String.
From stdpp Require Import gmap strings list fin_maps.

Open Scope string_scope.
Open Scope list_scope.
Open Scope nat_scope.

(* ===================================================================== *)
(** * Part I: definitions *)
(* ===================================================================== *)

Module Py.

(** ** Values and the store

    Immutable Python values are carried around as they are; a mutable
    object (a [dict], a [list], a class instance) lives in the store and
    is named by its location, so that two names of one object see each
    other's updates. *)

Abbreviation loc := nat.

Inductive val :=
| VNone
| VBool (b : bool)
| VInt (z : Z)
| VStr (s : string)
| VClass (name : string)
| VRef (l : loc).

#[global] Instance val_eq_dec : EqDecision val.
Proof. solve_decision. Defined.

(** The three kinds of mutable object, over the type [A] of what they
    hold: [val] in the store, a tree in a snapshot. *)
Inductive cellF (A : Type) :=
| CDict (items : list (string * A))
| CList (items : list A)
| CInst (cls : string) (attrs : list (string * A)).

Arguments CDict {A} items.
Arguments CList {A} items.
Arguments CInst {A} cls attrs.

Definition cell_map {A B : Type} (f : A → B) (c : cellF A) : cellF B :=
  match c with
  | CDict items => CDict (prod_map id f <$> items)
  | CList items => CList (f <$> items)
  | CInst cls attrs => CInst cls (prod_map id f <$> attrs)
  end.

(** What an object holds, left to right (the order [dict.items()] and
    list iteration follow). *)
Definition cell_children {A : Type} (c : cellF A) : list A :=
  match c with
  | CDict items => items.*2
  | CList items => items
  | CInst _ attrs => attrs.*2
  end.

(** The object [c] with its contents replaced, position by position. *)
Definition cell_refill {A B : Type} (c : cellF A) (xs : list B) : cellF B :=
  match c with
  | CDict items => CDict (zip items.*1 xs)
  | CList _ => CList xs
  | CInst cls attrs => CInst cls (zip attrs.*1 xs)
  end.

(** A new, empty object of the kind of [c]: [{}], [[]], or what
    [cls.__new__(cls)] gives. *)
Definition cell_blank {A : Type} (c : cellF A) : cellF A :=
  match c with
  | CDict _ => CDict []
  | CList _ => CList []
  | CInst cls _ => CInst cls []
  end.

Abbreviation cell := (cellF val).

(** The store: location [l] is the [l]-th object ever allocated. Objects
    are never freed, so a fresh location is [length h]. *)
Abbreviation heap := (list cell).

Definition alloc (h : heap) (c : cell) : heap * loc := (h ++ [c], length h).

(** Any in-place update of one object: [d[k] = v], [del d[k]],
    [xs.append(v)], [setattr(o, k, v)], ... *)
Definition store (h : heap) (l : loc) (c : cell) : heap := <[l := c]> h.

(** ** [dict.get] *)

Fixpoint assoc (k : string) (items : list (string * val)) : option val :=
  match items with
  | [] => None
  | (k', v) :: items' => if decide (k' = k) then Some v else assoc k items'
  end.

(** The items of the dictionary [d]; [None] when [d] is not a dictionary. *)
Definition dict_items (h : heap) (d : val) : option (list (string * val)) :=
  match d with
  | VRef l =>
      match h !! l with
      | Some (CDict items) => Some items
      | _ => None
      end
  | _ => None
  end.

(** [d.get(k, dflt)]; [None] when [d] is not a dictionary (Python raises
    [AttributeError]). *)
Definition dict_get (h : heap) (d : val) (k : string) (dflt : val) : option val :=
  items ← dict_items h d;
  Some (default dflt (assoc k items)).

(** The elements of the list [xs], in order; [None] when [xs] is not a
    list. *)
Definition list_items (h : heap) (xs : val) : option (list val) :=
  match xs with
  | VRef l =>
      match h !! l with
      | Some (CList items) => Some items
      | _ => None
      end
  | _ => None
  end.

(** [d[k] = v] on a dictionary. *)
Fixpoint assoc_set (k : string) (v : val) (items : list (string * val)) : list (string * val) :=
  match items with
  | [] => [(k, v)]
  | (k', v') :: items' =>
      if decide (k' = k) then (k, v) :: items' else (k', v') :: assoc_set k v items'
  end.

Definition dict_setitem (h : heap) (l : loc) (k : string) (v : val) : option heap :=
  match h !! l with
  | Some (CDict items) => Some (store h l (CDict (assoc_set k v items)))
  | _ => None
  end.

(** ** [copy.deepcopy]

    The standard library's algorithm: immutable values are returned as
    they are; for a mutable object the memo (from the identity of an
    original to its copy) is consulted first, otherwise an empty object of
    the same kind is created and recorded in the memo {e before} its
    contents are copied, left to right, with the same memo. Sharing and
    cycles in the original are therefore reproduced in the copy.

    [fuel] bounds the nesting of calls; [deepcopy] below supplies one unit
    per object in the store, which is always enough
    ([deepcopy_memo_total]). A reference to no object cannot arise in
    Python and yields [None]. *)

Abbreviation memo := (gmap loc loc).

Fixpoint copy_seq (f : heap → memo → val → option (heap * memo * val))
    (h : heap) (m : memo) (vs : list val) : option (heap * memo * list val) :=
  match vs with
  | [] => Some (h, m, [])
  | v :: vs' =>
      '(h1, m1, v') ← f h m v;
      '(h2, m2, vs'') ← copy_seq f h1 m1 vs';
      Some (h2, m2, v' :: vs'')
  end.

Fixpoint deepcopy_memo (fuel : nat) (h : heap) (m : memo) (v : val)
    : option (heap * memo * val) :=
  match v with
  | VRef l =>
      match m !! l with
      | Some l' => Some (h, m, VRef l')
      | None =>
          match fuel with
          | O => None
          | S fuel' =>
              c ← h !! l;
              let '(h1, l') := alloc h (cell_blank c) in
              '(h2, m2, vs) ← copy_seq (deepcopy_memo fuel') h1 (<[l := l']> m) (cell_children c);
              Some (store h2 l' (cell_refill c vs), m2, VRef l')
          end
      end
  | _ => Some (h, m, v)
  end.

Definition deepcopy (h : heap) (v : val) : option (heap * val) :=
  '(h', _, v') ← deepcopy_memo (length h) h ∅ v;
  Some (h', v').

(** ** Observing object graphs *)

(** The structure hanging off a value, unfolded to a given depth: what a
    recursive [==] or a pretty-printer walks through. Object identities do
    not appear in it. *)
#[warnings="-register-all"]
Inductive tree :=
| TAtom (v : val)
| TNode (c : cellF tree)
| TCut
| TDangling.

Fixpoint snapshot (depth : nat) (h : heap) (v : val) : tree :=
  match v with
  | VRef l =>
      match depth with
      | O => TCut
      | S depth' =>
          match h !! l with
          | Some c => TNode (cell_map (snapshot depth' h) c)
          | None => TDangling
          end
      end
  | _ => TAtom v
  end.

(** [v1] in [h1] and [v2] in [h2] are structurally equal. *)
Definition struct_eq (h1 : heap) (v1 : val) (h2 : heap) (v2 : val) : Prop :=
  ∀ depth, snapshot depth h1 v1 = snapshot depth h2 v2.

(** The mutable objects a value gives access to. *)
Inductive reach (h : heap) : val → loc → Prop :=
| reach_here l : reach h (VRef l) l
| reach_step l c v l' :
    h !! l = Some c → v ∈ cell_children c → reach h v l' → reach h (VRef l) l'.

(** Bounded search for the same, to run on examples. *)
Fixpoint reachable (depth : nat) (h : heap) (v : val) : list loc :=
  match v with
  | VRef l =>
      l :: match depth with
           | O => []
           | S depth' =>
               match h !! l with
               | Some c => cell_children c ≫= reachable depth' h
               | None => []
               end
           end
  | _ => []
  end.

(** Well-formed stores: every reference names an allocated object. *)
Definition val_ok (n : nat) (v : val) : Prop :=
  match v with VRef l => l < n | _ => True end.

Definition heap_ok (h : heap) : Prop :=
  ∀ l c, h !! l = Some c → Forall (val_ok (length h)) (cell_children c).

Definition val_okb (n : nat) (v : val) : bool :=
  match v with VRef l => bool_decide (l < n) | _ => true end.

Definition heap_okb (h : heap) : bool :=
  forallb (λ c, forallb (val_okb (length h)) (cell_children c)) h.

(** ** What a finished or unfinished deep copy looks like

    Used to state what [deepcopy] achieves. [rename m] sends a reference
    to an original to the reference to its copy. *)

Definition rename (m : memo) (v : val) : val :=
  match v with
  | VRef l => VRef (default l (m !! l))
  | _ => v
  end.

Definition covered (m : memo) (v : val) : Prop :=
  match v with
  | VRef l => is_Some (m !! l)
  | _ => True
  end.

(** The state of a copy of objects of [h0] in progress: the originals
    occupy the locations below [length h0] and are untouched, the
    copies made so far are exactly the objects above, the memo pairs each
    original with its copy, and every copy that is not still being filled
    ([grey]) holds the renamed contents of its original. *)
Record copy_inv (h0 : heap) (grey : loc → Prop) (h : heap) (m : memo) : Prop := {
  inv_prefix : take (length h0) h = h0;
  inv_range : ∀ l l', m !! l = Some l' → l < length h0 ∧ length h0 ≤ l' < length h;
  inv_inj : ∀ l1 l2 l', m !! l1 = Some l' → m !! l2 = Some l' → l1 = l2;
  inv_onto : ∀ l', length h0 ≤ l' < length h → ∃ l, m !! l = Some l';
  inv_done : ∀ l l', m !! l = Some l' → ¬ grey l →
    ∃ c, h0 !! l = Some c ∧ Forall (covered m) (cell_children c)
         ∧ h !! l' = Some (cell_map (rename m) c)
}.

(** [v'] in [h'] is a deep copy of [v] in [h0]: the objects of [h0] are
    as they were, the store is still well formed, [v'] gives access to
    objects created since [h0] only, and as long as those are left alone
    its structure is the one [v] had in [h0], whatever becomes of the
    objects of [h0]. *)
Record deep_copy_of (h0 : heap) (v : val) (h' : heap) (v' : val) : Prop := {
  dc_old : take (length h0) h' = h0;
  dc_ok : heap_ok h' ∧ val_ok (length h') v';
  dc_new : ∀ l, reach h' v' l → length h0 ≤ l < length h';
  dc_same : ∀ h2, (∀ l, length h0 ≤ l < length h' → h2 !! l = h' !! l) →
            struct_eq h2 v' h0 v
}.

(** ** Values without identity, and paths through an object graph *)

(** The values [copy.deepcopy] hands back as they are: [None], numbers,
    strings, classes. *)
Definition immutable (v : val) : Prop :=
  match v with
  | VRef _ => False
  | _ => True
  end.

(** What is found from [v] by taking, at each object on the way, the
    entry at the given position ([d[k]], [xs[i]], [o.attr] for the
    position of [k], [i], [attr]); [None] when the path leaves the
    structure. *)
Fixpoint follow (h : heap) (v : val) (path : list nat) : option val :=
  match path with
  | [] => Some v
  | i :: path' =>
      match v with
      | VRef l =>
          c ← h !! l;
          x ← cell_children c !! i;
          follow h x path'
      | _ => None
      end
  end.

End Py.

Import Py.

(* --------------------------------------------------------------------- *)

Module Framework.

(** ** The collaborators of the class

    [BaseGraph], the two node classes and the execution engine are
    imported by the source file and defined elsewhere in the framework.
    A node or a graph is modelled as the record of the arguments its
    constructor is called with; the engine is an external call. *)

(** [GraphIteratorNode(input=, output=, node_config=, schema=)] and
    [MergeAnswersNode(input=, output=, node_config=)], as
    [_create_graph] calls them. *)
Inductive BaseNode :=
| GraphIteratorNode (input : string) (output : list string)
    (node_config : gmap string val) (schema : val)
| MergeAnswersNode (input : string) (output : list string)
    (node_config : gmap string val).

#[global] Instance BaseNode_eq_dec : EqDecision BaseNode.
Proof. solve_decision. Defined.

Definition node_input (n : BaseNode) : string :=
  match n with
  | GraphIteratorNode i _ _ _ | MergeAnswersNode i _ _ => i
  end.

Definition node_output (n : BaseNode) : list string :=
  match n with
  | GraphIteratorNode _ o _ _ | MergeAnswersNode _ o _ => o
  end.

Definition node_config (n : BaseNode) : gmap string val :=
  match n with
  | GraphIteratorNode _ _ c _ | MergeAnswersNode _ _ c => c
  end.

(** The [schema=] keyword of a node, when its constructor is given one. *)
Definition node_schema (n : BaseNode) : option val :=
  match n with
  | GraphIteratorNode _ _ _ s => Some s
  | MergeAnswersNode _ _ _ => None
  end.

Definition is_iterator (n : BaseNode) : bool :=
  match n with GraphIteratorNode _ _ _ _ => true | _ => false end.

Definition is_merge (n : BaseNode) : bool :=
  match n with MergeAnswersNode _ _ _ => true | _ => false end.

(** [BaseGraph(nodes=, edges=, entry_point=, graph_name=)]. *)
Record BaseGraph := {
  nodes : list BaseNode;
  edges : list (BaseNode * BaseNode);
  entry_point : BaseNode;
  graph_name : string
}.

(** Modelled from the spec: the grammar of a node's [input] expression
    belongs to the framework's base node, which is not among the sources,
    and the spec only says that the pipeline is fed two required keys.
    The keys an expression such as ["user_prompt & jsons"] names are taken
    to be its maximal runs of identifier characters, whatever stands
    between them. *)
Definition is_key_char (a : ascii) : bool :=
  let n := nat_of_ascii a in
  ((48 <=? n) && (n <=? 57)) || ((65 <=? n) && (n <=? 90))
  || ((97 <=? n) && (n <=? 122)) || (n =? 95).

Definition flush (cur : string) : list string :=
  match cur with EmptyString => [] | _ => [cur] end.

Fixpoint scan_keys (cur : string) (s : string) : list string :=
  match s with
  | EmptyString => flush cur
  | String a s' =>
      if is_key_char a then scan_keys (cur +:+ String a EmptyString) s'
      else flush cur ++ scan_keys EmptyString s'
  end.

Definition input_keys (n : BaseNode) : list string := scan_keys EmptyString (node_input n).

(** A raised exception: its class and message. *)
Inductive exn := Exception (cls : string) (msg : string).

Inductive outcome (A : Type) :=
| Returns (a : A)
| Raises (e : exn).

Arguments Returns {A} a.
Arguments Raises {A} e.

(** What [BaseGraph.execute] hands back, as [run] unpacks it: the final
    state (a "result mapping" in the spec's words, from key to value) and
    the execution information. *)
Definition engine_result : Type := gmap string val * val.

(** A method body that may call the execution engine: either it is done,
    or it calls [g.execute(inputs)] and goes on with whatever the call
    returns or raises. The engine is not part of the program. *)
Inductive prog (A : Type) :=
| Done (a : A)
| Execute (g : BaseGraph) (inputs : gmap string val)
    (k : outcome engine_result → prog A).

Arguments Done {A} a.
Arguments Execute {A} g inputs k.

(** An engine: given the graph, the inputs and the store it may return
    or raise, and may update any object it can reach. *)
Definition engine : Type :=
  BaseGraph → gmap string val → heap → outcome engine_result * heap.

(** One call of the engine, as the engine saw it. *)
Record call := {
  call_graph : BaseGraph;
  call_inputs : gmap string val;
  call_heap : heap
}.

(** The outcome of a run: the value computed, the store left behind and
    the engine calls made, oldest first. *)
Record run_result (A : Type) := {
  value : A;
  final_heap : heap;
  calls : list call
}.

Arguments value {A} r.
Arguments final_heap {A} r.
Arguments calls {A} r.

Fixpoint exec {A : Type} (e : engine) (p : prog A) (h : heap) : run_result A :=
  match p with
  | Done a => {| value := a; final_heap := h; calls := [] |}
  | Execute g inputs k =>
      let '(r, h') := e g inputs h in
      let res := exec e (k r) h' in
      {| value := value res;
         final_heap := final_heap res;
         calls := {| call_graph := g; call_inputs := inputs; call_heap := h |} :: calls res |}
  end.

End Framework.

Import Framework.

(* --------------------------------------------------------------------- *)

Module Class.

(** ** The class [JSONScraperMultiGraph]

    An instance is the record of its attributes. [graph], [final_state]
    and [execution_info] are [None] until they are first assigned;
    [class_name] is [self.__class__.__name__]. *)
Record JSONScraperMultiGraph := {
  class_name : string;
  prompt : string;
  source : val;
  config : val;
  schema : val;
  llm_model : val;
  max_results : val;
  copy_config : val;
  copy_schema : val;
  graph : option BaseGraph;
  final_state : option (gmap string val);
  execution_info : option val
}.

Definition set_graph (g : option BaseGraph) (self : JSONScraperMultiGraph) :=
  {| class_name := class_name self; prompt := prompt self; source := source self;
     config := config self; schema := schema self; llm_model := llm_model self;
     max_results := max_results self; copy_config := copy_config self;
     copy_schema := copy_schema self; graph := g;
     final_state := final_state self; execution_info := execution_info self |}.

Definition set_final_state (fs : option (gmap string val)) (self : JSONScraperMultiGraph) :=
  {| class_name := class_name self; prompt := prompt self; source := source self;
     config := config self; schema := schema self; llm_model := llm_model self;
     max_results := max_results self; copy_config := copy_config self;
     copy_schema := copy_schema self; graph := graph self;
     final_state := fs; execution_info := execution_info self |}.

Definition set_execution_info (ei : option val) (self : JSONScraperMultiGraph) :=
  {| class_name := class_name self; prompt := prompt self; source := source self;
     config := config self; schema := schema self; llm_model := llm_model self;
     max_results := max_results self; copy_config := copy_config self;
     copy_schema := copy_schema self; graph := graph self;
     final_state := final_state self; execution_info := ei |}.

Definition set_max_results (v : val) (self : JSONScraperMultiGraph) :=
  {| class_name := class_name self; prompt := prompt self; source := source self;
     config := config self; schema := schema self; llm_model := llm_model self;
     max_results := v; copy_config := copy_config self;
     copy_schema := copy_schema self; graph := graph self;
     final_state := final_state self; execution_info := execution_info self |}.

Definition set_llm_model (v : val) (self : JSONScraperMultiGraph) :=
  {| class_name := class_name self; prompt := prompt self; source := source self;
     config := config self; schema := schema self; llm_model := v;
     max_results := max_results self; copy_config := copy_config self;
     copy_schema := copy_schema self; graph := graph self;
     final_state := final_state self; execution_info := execution_info self |}.

(** Modelled from the spec: [safe_deepcopy] comes from [..utils.copy],
    which is not among the sources. The spec calls what the constructor
    does to the configuration a deep copy ("deep-copy-based configuration
    isolation"), so it is [copy.deepcopy]. *)
Definition safe_deepcopy (h : heap) (v : val) : option (heap * val) := deepcopy h v.

(** Lines 56-100. *)
Definition _create_graph (self : JSONScraperMultiGraph) : BaseGraph :=
  let graph_iterator_node :=
    GraphIteratorNode
      "user_prompt & jsons"
      ["results"]
      {[ "graph_instance" := VClass "JSONScraperGraph";
         "scraper_config" := copy_config self ]}
      (copy_schema self) in
  let merge_answers_node :=
    MergeAnswersNode
      "user_prompt & results"
      ["answer"]
      {[ "llm_model" := llm_model self;
         "schema" := copy_schema self ]} in
  {| nodes := [graph_iterator_node; merge_answers_node];
     edges := [(graph_iterator_node, merge_answers_node)];
     entry_point := graph_iterator_node;
     graph_name := class_name self |}.

Section Construction.

(** The framework's language-model factory: what [AbstractGraph] makes
    of the configuration to fill [llm_model]. It is not among the
    sources; every fact below holds whatever it returns. *)
Variable create_llm : heap → val → val.

(** Modelled from the spec: [AbstractGraph.__init__] is not among the
    sources. From the spec ("copies configuration, instantiates two
    pre-built processing nodes, wires them into a two-node directed graph,
    and feeds input into an externally-implemented execution engine") and
    from what [run] and [_create_graph] read, it keeps its four arguments
    as attributes, fills [llm_model], builds the graph with the
    instance's own [_create_graph] and leaves the results of a run unset.
    [cls], [max_results], [copy_config] and [copy_schema] are the
    instance as the subclass constructor has set it up by then. *)
Definition AbstractGraph__init__ (cls : string) (max_results copy_config copy_schema : val)
    (h : heap) (prompt : string) (config source schema : val) : JSONScraperMultiGraph :=
  let self :=
    {| class_name := cls; prompt := prompt; source := source; config := config;
       schema := schema; llm_model := create_llm h config;
       max_results := max_results; copy_config := copy_config;
       copy_schema := copy_schema; graph := None;
       final_state := None; execution_info := None |} in
  set_graph (Some (_create_graph self)) self.

(** Lines 45-54. [None] when the constructor raises. *)
Definition __init__ (h : heap) (prompt : string) (source config schema : val)
    : option (heap * JSONScraperMultiGraph) :=
  max_results ← dict_get h config "max_results" (VInt 3);
  '(h1, copy_config) ← safe_deepcopy h config;
  '(h2, copy_schema) ← deepcopy h1 schema;
  Some (h2, AbstractGraph__init__ "JSONScraperMultiGraph" max_results copy_config copy_schema
              h2 prompt config source schema).

End Construction.

(** The inputs of line 109. *)
Definition run_inputs (self : JSONScraperMultiGraph) : gmap string val :=
  {[ "user_prompt" := VStr (prompt self); "jsons" := source self ]}.

(** [final_state.get("answer", "No answer found.")], line 112. *)
Definition answer_of (final_state : gmap string val) : val :=
  default (VStr "No answer found.") (final_state !! "answer").

(** Lines 102-112. The value is the instance as the call leaves it,
    with what the call returns or raises. *)
Definition run (self : JSONScraperMultiGraph)
    : prog (JSONScraperMultiGraph * outcome val) :=
  match graph self with
  | None => Done (self, Raises (Exception "AttributeError" "graph"))
  | Some g =>
      let inputs := run_inputs self in
      Execute g inputs (λ r,
        match r with
        | Raises e => Done (self, Raises e)
        | Returns (final_state, execution_info) =>
            let self' :=
              set_execution_info (Some execution_info)
                (set_final_state (Some final_state) self) in
            Done (self', Returns (answer_of final_state))
        end)
  end.

End Class.

Import Class.

(* --------------------------------------------------------------------- *)

Module Reference.

(** ** What the framework does with a graph

    Modelled from the spec: [BaseGraph.execute], [GraphIteratorNode] and
    [MergeAnswersNode] are not among the sources. The spec says of the
    pipeline that "it fans the prompt+each-source out to a per-document
    answering sub-pipeline, then merges the per-document answers into one
    final answer", of a node that it is "a unit of processing" and of a
    graph that it is "a directed composition of nodes defining a
    pipeline's data/control flow". Accordingly the engine starts at the
    entry point with the inputs as state, lets each node read the keys its
    input expression names, in order, and write its output key, and goes
    on along the edge that leaves the node, until there is none. The
    iterator node runs the sub-pipeline class it is configured with once
    per source and collects the answers in a new list; the merge node
    combines the answers of that list into one.

    What a sub-pipeline answers for a document and how answers are
    merged is the language model's doing and is left open. *)

Section Engine.

(** [sub_pipeline cls scraper_config schema prompt source h]: the answer
    of the pipeline class [cls], so configured, for one source. *)
Variable sub_pipeline : string → val → val → val → val → heap → val.

(** [merge_answers llm_model schema prompt answers h]: the final answer
    made of the per-document answers. *)
Variable merge_answers : val → val → val → list val → heap → val.

Definition read_keys (keys : list string) (state : gmap string val) : option (list val) :=
  mapM (λ k, state !! k) keys.

Definition run_node (n : BaseNode) (state : gmap string val) (h : heap)
    : outcome (gmap string val) * heap :=
  match n with
  | GraphIteratorNode _ output node_config schema =>
      match read_keys (input_keys n) state, output,
            node_config !! "graph_instance", node_config !! "scraper_config" with
      | Some [user_prompt; sources], [out], Some (VClass cls), Some scraper_config =>
          match list_items h sources with
          | Some docs =>
              let results :=
                (λ doc, sub_pipeline cls scraper_config schema user_prompt doc h) <$> docs in
              let '(h', l) := alloc h (CList results) in
              (Returns (<[out := VRef l]> state), h')
          | None => (Raises (Exception "TypeError" "sources"), h)
          end
      | _, _, _, _ => (Raises (Exception "KeyError" "GraphIteratorNode"), h)
      end
  | MergeAnswersNode _ output node_config =>
      match read_keys (input_keys n) state, output,
            node_config !! "llm_model", node_config !! "schema" with
      | Some [user_prompt; results], [out], Some llm_model, Some schema =>
          match list_items h results with
          | Some answers =>
              (Returns (<[out := merge_answers llm_model schema user_prompt answers h]> state), h)
          | None => (Raises (Exception "TypeError" "results"), h)
          end
      | _, _, _, _ => (Raises (Exception "KeyError" "MergeAnswersNode"), h)
      end
  end.

(** The node the edge leaving [n] leads to. *)
Fixpoint successor (es : list (BaseNode * BaseNode)) (n : BaseNode) : option BaseNode :=
  match es with
  | [] => None
  | (a, b) :: es' => if decide (a = n) then Some b else successor es' n
  end.

Fixpoint walk (fuel : nat) (g : BaseGraph) (n : BaseNode) (state : gmap string val)
    (h : heap) : outcome engine_result * heap :=
  match fuel with
  | O => (Raises (Exception "RecursionError" "graph"), h)
  | S fuel' =>
      match run_node n state h with
      | (Raises ex, h') => (Raises ex, h')
      | (Returns state', h') =>
          match successor (edges g) n with
          | Some n' => walk fuel' g n' state' h'
          | None => (Returns (state', VNone), h')
          end
      end
  end.

(** One step per node of the graph is enough for a graph without cycle. *)
Definition execute : engine :=
  λ g inputs h, walk (length (nodes g)) g (entry_point g) inputs h.

End Engine.

End Reference.

(* --------------------------------------------------------------------- *)

Module Demo.

(** ** A concrete construction and run, to evaluate the definitions on

    The caller's store: a configuration whose ["llm"] entry is a nested
    dictionary, the list of sources, and a schema instance that refers
    back to itself. *)
Definition caller_heap : heap :=
  [ CDict [("llm", VRef 1); ("max_results", VInt 5); ("verbose", VBool false)];
    CDict [("model", VStr "openai/gpt-3.5-turbo"); ("temperature", VInt 0)];
    CList [VStr "inputs/first.json"; VStr "inputs/second.json"];
    CInst "Answer" [("title", VStr "text"); ("parent", VRef 3)] ].

Definition the_prompt : string := "List me all the authors".
Definition the_source : val := VRef 2.
Definition the_config : val := VRef 0.
Definition the_schema : val := VRef 3.

(** A configuration without ["max_results"]. *)
Definition bare_heap : heap := [ CDict [("verbose", VBool true)]; CList [] ].

(** A language-model factory that hands out an opaque handle. *)
Definition handle_llm : heap → val → val := λ _ _, VStr "llm-handle".

(** The store after construction: the four objects of the caller, then
    the copies of the two dictionaries and of the schema instance. *)
Definition built_heap : heap :=
  caller_heap ++
  [ CDict [("llm", VRef 5); ("max_results", VInt 5); ("verbose", VBool false)];
    CDict [("model", VStr "openai/gpt-3.5-turbo"); ("temperature", VInt 0)];
    CInst "Answer" [("title", VStr "text"); ("parent", VRef 6)] ].

Definition built : JSONScraperMultiGraph :=
  AbstractGraph__init__ handle_llm "JSONScraperMultiGraph" (VInt 5) (VRef 4) (VRef 6)
    built_heap the_prompt the_config the_source the_schema.

(** Engines: one that answers, one that returns a state without an
    answer, one whose answer is the text of the fallback, one that fails;
    the first also appends a source to the list it is given. *)
Definition append_to (h : heap) (v : val) (x : val) : heap :=
  match v with
  | VRef l =>
      match h !! l with
      | Some (CList xs) => store h l (CList (xs ++ [x]))
      | _ => h
      end
  | _ => h
  end.

Definition answering : engine := λ _ inputs h,
  (Returns ({[ "answer" := VStr "Ada, Grace"; "results" := VRef 2 ]}, VStr "info"),
   append_to h (default VNone (inputs !! "jsons")) (VStr "seen")).

Definition silent : engine := λ _ _ h,
  (Returns ({[ "results" := VRef 2 ]}, VStr "info"), h).

Definition echoing : engine := λ _ _ h,
  (Returns ({[ "answer" := VStr "No answer found." ]}, VStr "info"), h).

Definition failing : engine := λ _ _ h,
  (Raises (Exception "ValueError" "no model"), h).

(** A store in which the configuration names one dictionary twice and
    holds the schema, which in turn refers to itself and to that
    dictionary. *)
Definition shared_heap : heap :=
  [ CDict [("llm", VRef 1); ("fallback_llm", VRef 1); ("schema", VRef 2)];
    CDict [("model", VStr "openai/gpt-3.5-turbo")];
    CInst "Answer" [("parent", VRef 2); ("options", VRef 1)];
    CList [VStr "inputs/first.json"] ].

Definition shared_items : list (string * val) :=
  [("llm", VRef 1); ("fallback_llm", VRef 1); ("schema", VRef 2)].

(** An engine that fails on its first call and answers afterwards: it
    keeps count in the list of sources. *)
Definition flaky : engine := λ _ inputs h,
  match list_items h (default VNone (inputs !! "jsons")) with
  | Some (_ :: _ :: _ :: _) =>
      (Returns ({[ "answer" := VStr "Ada, Grace" ]}, VStr "second"), h)
  | _ =>
      (Raises (Exception "TimeoutError" "model"),
       append_to h (default VNone (inputs !! "jsons")) (VStr "tried"))
  end.

(** A sub-pipeline and a merge to run the reference engine with: the
    answer for a document names the document, the merged answer joins the
    answers. *)
Definition text_of (v : val) : string :=
  match v with VStr s => s | _ => "?" end.

Definition answer_document : string → val → val → val → val → heap → val :=
  λ cls _ _ _ doc _, VStr (cls +:+ " on " +:+ text_of doc).

Definition join_answers : val → val → val → list val → heap → val :=
  λ _ _ _ answers _, VStr (String.concat "; " (text_of <$> answers)).

End Demo.

(* ===================================================================== *)
(** * Part II: facts *)
(* ===================================================================== *)

(** ** Cells *)

Lemma zip_fst_fmap {A B : Type} (f : A → B) (items : list (string * A)) :
  zip items.*1 (f <$> items.*2) = prod_map id f <$> items.
Proof.
  induction items as [|[k x] items IH]; [done|].
  rewrite !fmap_cons. simpl. by rewrite IH.
Qed.

Lemma cell_refill_children {A B : Type} (f : A → B) (c : cellF A) :
  cell_refill c (f <$> cell_children c) = cell_map f c.
Proof. destruct c; simpl; by rewrite ?zip_fst_fmap. Qed.

Lemma cell_children_map {A B : Type} (f : A → B) (c : cellF A) :
  cell_children (cell_map f c) = f <$> cell_children c.
Proof.
  destruct c; simpl; try done;
    rewrite <- !list_fmap_compose; by apply list_fmap_ext.
Qed.

Lemma cell_map_compose {A B C : Type} (f : A → B) (g : B → C) (c : cellF A) :
  cell_map g (cell_map f c) = cell_map (g ∘ f) c.
Proof.
  destruct c; simpl; f_equal; rewrite <- list_fmap_compose;
    try done; apply list_fmap_ext; by intros ? [].
Qed.

Lemma prod_map_snd_ext {A B : Type} (f g : A → B) (items : list (string * A)) :
  Forall (λ x, f x = g x) items.*2 → prod_map id f <$> items = prod_map id g <$> items.
Proof.
  induction items as [|[k x] items IH]; intros H; [done|].
  rewrite !fmap_cons in *. inversion H as [|? ? Hx Hrest]; subst.
  cbn in *. rewrite Hx. f_equal. by apply IH.
Qed.

Lemma cell_map_ext {A B : Type} (f g : A → B) (c : cellF A) :
  Forall (λ x, f x = g x) (cell_children c) → cell_map f c = cell_map g c.
Proof.
  destruct c; simpl; intros H; f_equal;
    auto using prod_map_snd_ext, Forall_fmap_ext_1.
Qed.

(** ** The memo and the store *)

Lemma rename_mono (m m' : memo) v : m ⊆ m' → covered m v → rename m' v = rename m v.
Proof.
  intros Hsub Hc. destruct v; try done. destruct Hc as [l' Hl]. simpl.
  by rewrite Hl, (lookup_weaken _ _ _ _ Hl Hsub).
Qed.

Lemma covered_mono (m m' : memo) v : m ⊆ m' → covered m v → covered m' v.
Proof.
  destruct v; try done. intros Hsub [l' Hl]. exists l'. by eapply lookup_weaken.
Qed.

Lemma rename_covered_ext (m m' : memo) (vs : list val) :
  m ⊆ m' → Forall (covered m) vs → Forall (λ v, rename m' v = rename m v) vs.
Proof.
  intros Hsub H. eapply Forall_impl; [exact H|]. intros v. by apply rename_mono.
Qed.

(** A memo keyed by objects of a store of [n] objects that misses one of
    them has fewer than [n] entries. *)
Lemma memo_room (n : nat) (m : memo) (l : loc) :
  (∀ i i', m !! i = Some i' → i < n) → m !! l = None → l < n → size m < n.
Proof.
  intros Hdom Hl Hn.
  assert (size (dom (<[l := 0]> m)) ≤ n) as Hle.
  { rewrite <- (size_set_seq (C := gset nat) 0 n). apply subseteq_size.
    intros i [i' Hi]%elem_of_dom. apply elem_of_set_seq. split; [lia|]. simpl.
    destruct (decide (l = i)) as [<-|Hne]; [done|].
    rewrite lookup_insert_ne in Hi by done. eauto. }
  rewrite size_dom, map_size_insert_None in Hle by done. lia.
Qed.

Lemma prefix_lookup (h0 h : heap) (l : loc) :
  take (length h0) h = h0 → l < length h0 → h !! l = h0 !! l.
Proof.
  intros Hp Hl. assert (h0 !! l = take (length h0) h !! l) as -> by (by rewrite Hp).
  by rewrite lookup_take_lt.
Qed.

Lemma prefix_length (h0 h : heap) : take (length h0) h = h0 → length h0 ≤ length h.
Proof. intros Hp. apply (f_equal length) in Hp. rewrite length_take in Hp. lia. Qed.

(** ** [copy.deepcopy] returns, and returns a deep copy *)

Section Deepcopy.

Variable h0 : heap.
Hypothesis h0_ok : heap_ok h0.

Lemma copy_inv_alloc grey (h : heap) (m : memo) l c :
  copy_inv h0 grey h m → l < length h0 → m !! l = None →
  copy_inv h0 (λ x, grey x ∨ x = l) (h ++ [c]) (<[l := length h]> m).
Proof.
  intros Hinv Hl E.
  pose proof (prefix_length _ _ (inv_prefix _ _ _ _ Hinv)) as Hlen.
  split.
  - rewrite take_app_le by lia. apply Hinv.
  - intros i i' Hi. rewrite length_app. simpl.
    destruct (decide (l = i)) as [<-|Hne].
    + rewrite lookup_insert_eq in Hi. injection Hi as <-. lia.
    + rewrite lookup_insert_ne in Hi by done.
      apply (inv_range _ _ _ _ Hinv) in Hi. lia.
  - intros i1 i2 i' H1 H2.
    destruct (decide (l = i1)) as [<-|Hne1], (decide (l = i2)) as [<-|Hne2]; try done.
    + rewrite lookup_insert_eq in H1. injection H1 as <-.
      rewrite lookup_insert_ne in H2 by done.
      apply (inv_range _ _ _ _ Hinv) in H2. lia.
    + rewrite lookup_insert_eq in H2. injection H2 as <-.
      rewrite lookup_insert_ne in H1 by done.
      apply (inv_range _ _ _ _ Hinv) in H1. lia.
    + rewrite lookup_insert_ne in H1, H2 by done. by eapply (inv_inj _ _ _ _ Hinv).
  - intros i'. rewrite length_app. simpl. intros [Hlo Hhi].
    destruct (decide (i' = length h)) as [->|Hne].
    + exists l. by rewrite lookup_insert_eq.
    + destruct (inv_onto _ _ _ _ Hinv i') as [i Hi]; [lia|].
      exists i. rewrite lookup_insert_ne; [done|]. intros <-. congruence.
  - intros i i' Hi Hng.
    assert (l ≠ i) as Hne by (intros <-; apply Hng; by right).
    rewrite lookup_insert_ne in Hi by done.
    destruct (inv_done _ _ _ _ Hinv i i' Hi) as (ci & Hci & Hcov & Hcell).
    { intros ?. apply Hng. by left. }
    assert (m ⊆ <[l := length h]> m) as Hsub by (by apply insert_subseteq).
    exists ci. split; [done|]. split.
    + eapply Forall_impl; [exact Hcov|]. intros v. by apply covered_mono.
    + apply (inv_range _ _ _ _ Hinv) in Hi.
      rewrite lookup_app_l by lia. rewrite Hcell. f_equal. symmetry.
      apply cell_map_ext. by apply rename_covered_ext.
Qed.

Lemma copy_inv_fill grey (h h2 : heap) (m2 : memo) l c :
  copy_inv h0 (λ x, grey x ∨ x = l) h2 m2 →
  h0 !! l = Some c → m2 !! l = Some (length h) →
  Forall (covered m2) (cell_children c) →
  copy_inv h0 grey (store h2 (length h) (cell_map (rename m2) c)) m2.
Proof.
  intros Hinv Hc Hl Hcov. unfold store.
  pose proof (inv_range _ _ _ _ Hinv _ _ Hl) as [_ Hrange].
  split.
  - rewrite take_insert_ge by lia. apply Hinv.
  - intros i i' Hi. rewrite length_insert. by apply (inv_range _ _ _ _ Hinv).
  - apply Hinv.
  - intros i'. rewrite length_insert. apply Hinv.
  - intros i i' Hi Hng. destruct (decide (i = l)) as [->|Hne].
    + rewrite Hl in Hi. injection Hi as <-. exists c.
      split; [done|]. split; [done|]. apply list_lookup_insert_eq. lia.
    + destruct (inv_done _ _ _ _ Hinv i i' Hi) as (ci & Hci & Hcovi & Hcell).
      { by intros [?|?]. }
      exists ci. split; [done|]. split; [done|].
      rewrite list_lookup_insert_ne; [done|].
      intros <-. apply Hne. by eapply (inv_inj _ _ _ _ Hinv).
Qed.

(** The statement proved of [deepcopy_memo fuel] by induction on [fuel]:
    given enough fuel for the objects not yet in the memo, the call
    returns, with the renamed value, a larger memo that covers the value,
    and the invariant kept. *)
Lemma copy_seq_total fuel :
  (∀ grey (h : heap) (m : memo) v,
     copy_inv h0 grey h m → val_ok (length h0) v → length h0 ≤ fuel + size m →
     ∃ h' m', deepcopy_memo fuel h m v = Some (h', m', rename m' v)
              ∧ copy_inv h0 grey h' m' ∧ m ⊆ m' ∧ covered m' v) →
  ∀ vs grey (h : heap) (m : memo),
    copy_inv h0 grey h m → Forall (val_ok (length h0)) vs → length h0 ≤ fuel + size m →
    ∃ h' m', copy_seq (deepcopy_memo fuel) h m vs = Some (h', m', rename m' <$> vs)
             ∧ copy_inv h0 grey h' m' ∧ m ⊆ m' ∧ Forall (covered m') vs.
Proof.
  intros IH. induction vs as [|v vs IHvs]; intros grey h m Hinv Hvs Hfuel.
  - exists h, m. split; [done|]. split; [done|]. split; [done|]. constructor.
  - inversion_clear Hvs as [|? ? Hv Hvs'].
    destruct (IH grey h m v Hinv Hv Hfuel) as (h1 & m1 & E1 & Hinv1 & Hsub1 & Hc1).
    destruct (IHvs grey h1 m1 Hinv1 Hvs') as (h2 & m2 & E2 & Hinv2 & Hsub2 & Hc2).
    { pose proof (map_subseteq_size _ _ Hsub1). lia. }
    exists h2, m2. simpl. rewrite E1. simpl. rewrite E2. simpl.
    rewrite (rename_mono m1 m2 v Hsub2 Hc1).
    split; [done|]. split; [done|]. split; [by etrans|].
    constructor; [by eapply covered_mono|done].
Qed.

Lemma deepcopy_memo_total fuel grey (h : heap) (m : memo) v :
  copy_inv h0 grey h m → val_ok (length h0) v → length h0 ≤ fuel + size m →
  ∃ h' m', deepcopy_memo fuel h m v = Some (h', m', rename m' v)
           ∧ copy_inv h0 grey h' m' ∧ m ⊆ m' ∧ covered m' v.
Proof.
  revert grey h m v. induction fuel as [|fuel IH]; intros grey h m v Hinv Hv Hfuel;
    (destruct v as [|b|z|s|name|l];
     try (exists h, m; split; [done|]; split; [done|]; split; done)).
  - (* no fuel: the object is in the memo already *)
    simpl in Hv. destruct (m !! l) as [l'|] eqn:E.
    + exists h, m. simpl. rewrite E.
      split; [done|]. split; [done|]. split; [done|]. by exists l'.
    + assert (size m < length h0); [|lia].
      apply (memo_room _ m l); [|done|done].
      intros i i' Hi. apply (inv_range _ _ _ _ Hinv) in Hi. lia.
  - simpl in Hv. destruct (m !! l) as [l'|] eqn:E; simpl; rewrite E.
    + exists h, m. simpl. rewrite E.
      split; [done|]. split; [done|]. split; [done|]. by exists l'.
    + destruct (lookup_lt_is_Some_2 h0 l Hv) as [c Hc].
      rewrite (prefix_lookup h0 h l) by (done || apply Hinv). rewrite Hc. simpl.
      pose proof (copy_inv_alloc grey h m l (cell_blank c) Hinv Hv E) as Hinv1.
      destruct (copy_seq_total fuel IH (cell_children c) _ _ _ Hinv1)
        as (h2 & m2 & E2 & Hinv2 & Hsub2 & Hcov2).
      { by eapply h0_ok. }
      { rewrite map_size_insert_None by done. lia. }
      rewrite E2. simpl. rewrite cell_refill_children.
      assert (m2 !! l = Some (length h)) as Hl2.
      { eapply lookup_weaken; [apply lookup_insert_eq|done]. }
      eexists _, m2. rewrite Hl2. simpl. split; [done|].
      split; [by eapply copy_inv_fill|].
      split; [|done]. etrans; [|done]. by apply insert_subseteq.
Qed.

End Deepcopy.

(** ** A finished copy *)

Section Finished.

Variables (h0 h' : heap) (m : memo).
Hypothesis Hinv : copy_inv h0 (λ _, False) h' m.

Lemma finished_cell l l' :
  m !! l = Some l' →
  ∃ c, h0 !! l = Some c ∧ Forall (covered m) (cell_children c)
       ∧ h' !! l' = Some (cell_map (rename m) c).
Proof. intros Hl. eapply (inv_done _ _ _ _ Hinv); [done|tauto]. Qed.

Lemma rename_in_range v :
  covered m v → val_ok (length h') (rename m v)
                ∧ ∀ i', rename m v = VRef i' → ∃ i, m !! i = Some i'.
Proof.
  destruct v as [|b|z|s|name|l]; try done. intros [l' Hl]. simpl. rewrite Hl. simpl.
  split; [apply (inv_range _ _ _ _ Hinv) in Hl; lia|].
  intros i' [= <-]. eauto.
Qed.

Lemma snapshot_renamed (h2 : heap) :
  (∀ l, length h0 ≤ l < length h' → h2 !! l = h' !! l) →
  ∀ depth v, covered m v → snapshot depth h2 (rename m v) = snapshot depth h0 v.
Proof.
  intros Hsame. induction depth as [|depth IH];
    intros [|b|z|s|name|l] Hc; try done; destruct Hc as [l' Hl];
    simpl; rewrite Hl; simpl.
  destruct (finished_cell l l' Hl) as (c & Hc & Hcov & Hcell).
  rewrite Hsame by (apply (inv_range _ _ _ _ Hinv) in Hl; lia).
  rewrite Hcell, Hc. f_equal. rewrite cell_map_compose.
  apply cell_map_ext. eapply Forall_impl; [exact Hcov|]. intros x Hx. by apply IH.
Qed.

Lemma reach_renamed v' l :
  reach h' v' l → (∀ i', v' = VRef i' → ∃ i, m !! i = Some i') →
  ∃ i, m !! i = Some l.
Proof.
  induction 1 as [l|l c v l' Hl Hin Hreach IH]; intros Hv'; [by apply Hv'|].
  apply IH. intros i' ->.
  destruct (Hv' l eq_refl) as [i Hi].
  destruct (finished_cell i l Hi) as (c0 & Hc0 & Hcov & Hcell).
  rewrite Hl in Hcell. injection Hcell as ->.
  rewrite cell_children_map in Hin.
  apply list_elem_of_fmap in Hin as (x & Hx & Hin).
  rewrite Forall_forall in Hcov. by apply (rename_in_range x (Hcov x Hin)).
Qed.

Lemma finished_heap_ok : heap_ok h0 → heap_ok h'.
Proof.
  intros Hok l c Hl.
  pose proof (prefix_length _ _ (inv_prefix _ _ _ _ Hinv)) as Hlen.
  destruct (decide (l < length h0)) as [Hold|Hnew].
  - rewrite (prefix_lookup h0 h' l) in Hl by (done || apply Hinv).
    eapply Forall_impl; [by eapply Hok|]. intros [] ?; simpl in *; lia.
  - destruct (inv_onto _ _ _ _ Hinv l) as [i Hi].
    { apply lookup_lt_Some in Hl. lia. }
    destruct (finished_cell i l Hi) as (c0 & Hc0 & Hcov & Hcell).
    rewrite Hl in Hcell. injection Hcell as ->.
    rewrite cell_children_map. apply Forall_fmap.
    eapply Forall_impl; [exact Hcov|]. intros x Hx. by apply rename_in_range.
Qed.

End Finished.

(** A well-formed store read through one of its own values does not
    depend on what was allocated after it. *)
Lemma snapshot_prefix (h0 h : heap) :
  heap_ok h0 → take (length h0) h = h0 →
  ∀ depth v, val_ok (length h0) v → snapshot depth h v = snapshot depth h0 v.
Proof.
  intros Hok Hp. induction depth as [|depth IH];
    intros [|b|z|s|name|l] Hv; try done. simpl in *.
  rewrite (prefix_lookup h0 h l) by done.
  destruct (h0 !! l) as [c|] eqn:Hc; [|done]. f_equal.
  apply cell_map_ext. eapply Forall_impl; [by eapply Hok|]. intros x Hx. by apply IH.
Qed.

Lemma reach_old (h0 : heap) v l :
  heap_ok h0 → reach h0 v l → val_ok (length h0) v → l < length h0.
Proof.
  intros Hok. induction 1 as [l|l c v l' Hl Hin Hreach IH]; [done|]. intros _.
  apply IH. pose proof (Hok l c Hl) as Hkids. rewrite Forall_forall in Hkids. auto.
Qed.

Lemma copy_inv_start (h0 : heap) : copy_inv h0 (λ _, False) h0 ∅.
Proof.
  split.
  - by rewrite take_ge.
  - intros l l'. by rewrite lookup_empty.
  - intros l1 l2 l'. by rewrite lookup_empty.
  - intros l'. lia.
  - intros l l'. by rewrite lookup_empty.
Qed.

(** On a well-formed store [copy.deepcopy] returns, and what it returns
    is a deep copy. *)
Lemma deepcopy_deep_copy (h0 : heap) (v : val) :
  heap_ok h0 → val_ok (length h0) v →
  ∃ h' v', deepcopy h0 v = Some (h', v') ∧ deep_copy_of h0 v h' v'.
Proof.
  intros Hok Hv.
  destruct (deepcopy_memo_total h0 Hok (length h0) _ h0 ∅ v (copy_inv_start h0) Hv)
    as (h' & m & E & Hinv & _ & Hcov); [lia|].
  exists h', (rename m v). unfold deepcopy. rewrite E. simpl. split; [done|].
  split.
  - apply Hinv.
  - split; [by eapply finished_heap_ok|]. by eapply rename_in_range.
  - intros l Hreach.
    destruct (reach_renamed h0 h' m Hinv _ _ Hreach) as [i Hi].
    { by eapply rename_in_range. }
    apply (inv_range _ _ _ _ Hinv) in Hi. lia.
  - intros h2 Hsame depth. by eapply snapshot_renamed.
Qed.

(** ** [copy.deepcopy] leaves every existing object as it is *)

Lemma prefix_trans (h h1 h2 : heap) :
  take (length h) h1 = h → take (length h1) h2 = h1 → take (length h) h2 = h.
Proof.
  intros H1 H2. pose proof (prefix_length _ _ H1).
  rewrite <- H1 at 2. rewrite <- H2. rewrite take_take. f_equal. lia.
Qed.

Lemma copy_seq_prefix (f : heap → memo → val → option (heap * memo * val)) :
  (∀ h m v h' m' v', f h m v = Some (h', m', v') → take (length h) h' = h) →
  ∀ vs h m h' m' vs',
    copy_seq f h m vs = Some (h', m', vs') → take (length h) h' = h.
Proof.
  intros Hf. induction vs as [|v vs IH]; intros h m h' m' vs' E; simpl in E.
  - injection E as <- _ _. by rewrite take_ge.
  - destruct (f h m v) as [[[h1 m1] v1]|] eqn:E1; [|done]. simpl in E.
    destruct (copy_seq f h1 m1 vs) as [[[h2 m2] vs2]|] eqn:E2; [|done]. simpl in E.
    injection E as <- _ _. eapply prefix_trans; eauto.
Qed.

Lemma deepcopy_memo_prefix fuel (h : heap) (m : memo) v h' m' v' :
  deepcopy_memo fuel h m v = Some (h', m', v') → take (length h) h' = h.
Proof.
  revert h m v h' m' v'. induction fuel as [|fuel IH]; intros h m v h' m' v' E;
    (destruct v as [|b|z|s|name|l];
     try (injection E as <- _ _; by rewrite take_ge));
    simpl in E; destruct (m !! l) as [l1|];
    try (injection E as <- _ _; by rewrite take_ge); [done|].
  destruct (h !! l) as [c|]; [|done]. simpl in E.
  destruct (copy_seq _ _ _ _) as [[[h2 m2] vs]|] eqn:E2; [|done]. simpl in E.
  injection E as <- _ _. unfold store.
  apply (copy_seq_prefix _ IH) in E2.
  pose proof (prefix_length _ _ E2) as Hlen. rewrite length_app in Hlen. simpl in Hlen.
  rewrite take_insert_ge by lia.
  eapply prefix_trans; [|exact E2].
  rewrite take_app_le by lia. by rewrite take_ge.
Qed.

Lemma deepcopy_prefix (h : heap) v h' v' :
  deepcopy h v = Some (h', v') → take (length h) h' = h.
Proof.
  unfold deepcopy. intros E.
  destruct (deepcopy_memo _ _ _ _) as [[[h1 m1] v1]|] eqn:E1; [|done].
  simpl in E. injection E as <- _. by eapply deepcopy_memo_prefix.
Qed.

(** Reaching objects of a well-formed store does not depend on what was
    allocated after it. *)
Lemma reach_prefix (h0 h : heap) v l :
  heap_ok h0 → take (length h0) h = h0 →
  reach h v l → val_ok (length h0) v → reach h0 v l.
Proof.
  intros Hok Hp. induction 1 as [l|l c v l' Hl Hin Hreach IH]; [constructor|].
  simpl. intros Hv. rewrite (prefix_lookup h0 h l) in Hl by done.
  econstructor; [done..|]. apply IH.
  pose proof (Hok l c Hl) as Hkids. rewrite Forall_forall in Hkids. auto.
Qed.

Lemma val_ok_mono (n n' : nat) v : n ≤ n' → val_ok n v → val_ok n' v.
Proof. destruct v; simpl; try done. lia. Qed.

Lemma heap_okb_ok (h : heap) : heap_okb h = true → heap_ok h.
Proof.
  unfold heap_okb. rewrite forallb_forall. intros H l c Hl.
  apply list_elem_of_lookup_2, list_elem_of_In, H in Hl.
  rewrite forallb_forall in Hl. apply Forall_forall. intros v Hv.
  apply list_elem_of_In, Hl in Hv. destruct v; try done. simpl in *.
  by apply bool_decide_eq_true in Hv.
Qed.

Lemma assoc_children (k : string) (items : list (string * val)) v :
  assoc k items = Some v → v ∈ items.*2.
Proof.
  induction items as [|[k' v'] items IH]; [done|]. simpl.
  case_decide; [intros [= ->]; left | right; auto].
Qed.

(** ** The constructor *)

Section ConstructorFacts.

Variable create_llm : heap → val → val.

Lemma init_inv h0 p src cfg sch h' self :
  __init__ create_llm h0 p src cfg sch = Some (h', self) →
  ∃ items h1 cc cs,
    dict_items h0 cfg = Some items
    ∧ deepcopy h0 cfg = Some (h1, cc) ∧ deepcopy h1 sch = Some (h', cs)
    ∧ self = AbstractGraph__init__ create_llm "JSONScraperMultiGraph"
               (default (VInt 3) (assoc "max_results" items)) cc cs h' p cfg src sch.
Proof.
  unfold __init__, safe_deepcopy, dict_get. intros E.
  destruct (dict_items h0 cfg) as [items|]; [|done]. simpl in E.
  destruct (deepcopy h0 cfg) as [[h1 cc]|]; [|done]. simpl in E.
  destruct (deepcopy h1 sch) as [[h2 cs]|] eqn:E2; [|done]. simpl in E.
  injection E as <- <-. exists items, h1, cc, cs. by repeat split.
Qed.

Lemma dict_items_ok (h : heap) d items :
  dict_items h d = Some items → val_ok (length h) d.
Proof.
  destruct d as [|b|z|s|name|l]; try done. simpl.
  destruct (h !! l) eqn:E; [|done]. intros _. by eapply lookup_lt_Some.
Qed.

(** On a well-formed store, with a dictionary for configuration, the
    constructor returns, and its two copies are deep copies. *)
Lemma init_total h0 p src cfg sch items :
  heap_ok h0 → dict_items h0 cfg = Some items → val_ok (length h0) sch →
  ∃ h1 cc h' cs,
    deep_copy_of h0 cfg h1 cc ∧ deep_copy_of h1 sch h' cs
    ∧ __init__ create_llm h0 p src cfg sch =
        Some (h', AbstractGraph__init__ create_llm "JSONScraperMultiGraph"
                    (default (VInt 3) (assoc "max_results" items)) cc cs h' p cfg src sch).
Proof.
  intros Hok Hitems Hsch.
  destruct (deepcopy_deep_copy h0 cfg Hok) as (h1 & cc & E1 & D1).
  { by eapply dict_items_ok. }
  destruct (deepcopy_deep_copy h1 sch) as (h' & cs & E2 & D2).
  { apply D1. }
  { eapply val_ok_mono; [|done]. apply prefix_length, D1. }
  exists h1, cc, h', cs. split; [done|]. split; [done|].
  unfold __init__, safe_deepcopy, dict_get. rewrite Hitems. simpl.
  rewrite E1. simpl. by rewrite E2.
Qed.

End ConstructorFacts.

(** ** [run] against an engine *)

Lemma exec_run (e : engine) self (h : heap) :
  exec e (run self) h =
  match graph self with
  | None =>
      {| value := (self, Raises (Exception "AttributeError" "graph"));
         final_heap := h; calls := [] |}
  | Some g =>
      {| value :=
           match (e g (run_inputs self) h).1 with
           | Raises ex => (self, Raises ex)
           | Returns (fs, info) =>
               (set_execution_info (Some info) (set_final_state (Some fs) self),
                Returns (answer_of fs))
           end;
         final_heap := (e g (run_inputs self) h).2;
         calls := [ {| call_graph := g; call_inputs := run_inputs self; call_heap := h |} ] |}
  end.
Proof.
  unfold run. destruct (graph self) as [g|]; [|done]. simpl.
  by destruct (e g (run_inputs self) h) as [[[fs info]|ex] h'].
Qed.

(** ** Lookups *)

Lemma deepcopy_immutable (h : heap) v : immutable v → deepcopy h v = Some (h, v).
Proof. unfold deepcopy. by destruct v, (length h). Qed.

Lemma dict_items_inv (h : heap) d items :
  dict_items h d = Some items → ∃ l, d = VRef l ∧ h !! l = Some (CDict items).
Proof.
  destruct d as [|b|z|s|name|l]; try done. simpl.
  destruct (h !! l) as [[its| |]|] eqn:E; try done. intros [= ->]. by exists l.
Qed.

(** [assoc] finds the first entry with the key, and nothing when no entry
    has it. *)
Lemma assoc_first (k : string) v (before after : list (string * val)) :
  k ∉ before.*1 → assoc k (before ++ (k, v) :: after) = Some v.
Proof.
  induction before as [|[k' v'] before IH]; simpl; intros Hk.
  - by rewrite decide_True.
  - apply not_elem_of_cons in Hk as [Hne Hk]. rewrite decide_False by done. auto.
Qed.

Lemma assoc_absent (k : string) (items : list (string * val)) :
  k ∉ items.*1 → assoc k items = None.
Proof.
  induction items as [|[k' v'] items IH]; simpl; intros Hk; [done|].
  apply not_elem_of_cons in Hk as [Hne Hk]. rewrite decide_False by done. auto.
Qed.

Lemma run_inputs_prompt self : run_inputs self !! "user_prompt" = Some (VStr (prompt self)).
Proof. unfold run_inputs. by rewrite lookup_insert_eq. Qed.

Lemma run_inputs_jsons self : run_inputs self !! "jsons" = Some (source self).
Proof.
  unfold run_inputs. rewrite lookup_insert_ne by done. by rewrite lookup_singleton_eq.
Qed.

(** ** The reference engine on the two kinds of node *)

Section ReferenceFacts.

Variable sub_pipeline : string → val → val → val → val → heap → val.
Variable merge_answers : val → val → val → list val → heap → val.

Lemma run_iterator_node (out : string) (node_config : gmap string val) schema
    (state : gmap string val) (h : heap) p src docs cls scraper_config :
  state !! "user_prompt" = Some p → state !! "jsons" = Some src →
  list_items h src = Some docs →
  node_config !! "graph_instance" = Some (VClass cls) →
  node_config !! "scraper_config" = Some scraper_config →
  Reference.run_node sub_pipeline merge_answers
    (GraphIteratorNode "user_prompt & jsons" [out] node_config schema) state h
  = (Returns (<[out := VRef (length h)]> state),
     h ++ [CList ((λ doc, sub_pipeline cls scraper_config schema p doc h) <$> docs)]).
Proof.
  intros Hp Hs Hdocs Hcls Hcfg. unfold Reference.run_node.
  change (input_keys (GraphIteratorNode _ _ _ _)) with ["user_prompt"; "jsons"].
  unfold Reference.read_keys. cbn [mapM]. rewrite Hp, Hs.
  cbn [mbind option_bind mret option_ret]. by rewrite Hcls, Hcfg, Hdocs.
Qed.

Lemma run_merge_node (out : string) (node_config : gmap string val)
    (state : gmap string val) (h : heap) p results answers llm schema :
  state !! "user_prompt" = Some p → state !! "results" = Some results →
  list_items h results = Some answers →
  node_config !! "llm_model" = Some llm →
  node_config !! "schema" = Some schema →
  Reference.run_node sub_pipeline merge_answers
    (MergeAnswersNode "user_prompt & results" [out] node_config) state h
  = (Returns (<[out := merge_answers llm schema p answers h]> state), h).
Proof.
  intros Hp Hr Hans Hllm Hsch. unfold Reference.run_node.
  change (input_keys (MergeAnswersNode _ _ _)) with ["user_prompt"; "results"].
  unfold Reference.read_keys. cbn [mapM]. rewrite Hp, Hr.
  cbn [mbind option_bind mret option_ret]. by rewrite Hllm, Hsch, Hans.
Qed.

(** The reference engine on the graph of [_create_graph], fed what [run]
    feeds it. *)
Lemma reference_execute_create_graph self (h : heap) docs :
  list_items h (source self) = Some docs →
  let answers :=
    (λ doc, sub_pipeline "JSONScraperGraph" (copy_config self) (copy_schema self)
              (VStr (prompt self)) doc h) <$> docs in
  let h' := h ++ [CList answers] in
  let final :=
    merge_answers (llm_model self) (copy_schema self) (VStr (prompt self)) answers h' in
  Reference.execute sub_pipeline merge_answers (_create_graph self) (run_inputs self) h
  = (Returns (<["answer" := final]> (<["results" := VRef (length h)]> (run_inputs self)),
              VNone), h').
Proof.
  intros Hdocs answers h' final.
  unfold Reference.execute, _create_graph.
  cbn [nodes length entry_point edges Reference.walk].
  erewrite run_iterator_node;
    [|apply run_inputs_prompt|apply run_inputs_jsons|exact Hdocs|done|done].
  cbn [Reference.successor]. rewrite decide_True by done.
  erewrite run_merge_node; [|..|done|done].
  - cbn [Reference.successor]. rewrite decide_False by done. done.
  - rewrite lookup_insert_ne by done. apply run_inputs_prompt.
  - apply lookup_insert_eq.
  - unfold list_items. rewrite lookup_app_r by done. by rewrite Nat.sub_diag.
Qed.

End ReferenceFacts.

(* ===================================================================== *)
(** * Part III: the properties of the class *)
(* ===================================================================== *)

(** ** What [run] returns *)

(** C1, as amended. For every final state the engine returns, [run]
    returns the value stored under ["answer"] when the key is present and
    the text ["No answer found."] when it is absent; a result equal to that
    text arises only when the key is absent or is itself bound to that
    text; and two final states that agree on ["answer"] give the same
    result, whatever their other keys hold. *)
Theorem run_returns_answer_or_fallback (e : engine) self g (h : heap) fs info h' :
  graph self = Some g →
  e g (run_inputs self) h = (Returns (fs, info), h') →
  let result := (value (exec e (run self) h)).2 in
  (∀ v, fs !! "answer" = Some v → result = Returns v)
  ∧ (fs !! "answer" = None → result = Returns (VStr "No answer found."))
  ∧ (result = Returns (VStr "No answer found.") →
       fs !! "answer" = None ∨ fs !! "answer" = Some (VStr "No answer found."))
  ∧ (∀ (e2 : engine) (h2 : heap) fs2 info2 h2',
       e2 g (run_inputs self) h2 = (Returns (fs2, info2), h2') →
       fs2 !! "answer" = fs !! "answer" →
       (value (exec e2 (run self) h2)).2 = result).
Proof.
  intros Hg He result. subst result. rewrite exec_run, Hg. simpl. rewrite He. simpl.
  unfold answer_of. split; [by intros v ->|]. split; [by intros ->|]. split.
  - destruct (fs !! "answer") as [v|]; simpl; [intros [= ->]; by right | by left].
  - intros e2 h2 fs2 info2 h2' He2 Heq. rewrite exec_run, Hg. simpl. rewrite He2. simpl.
    unfold answer_of. by rewrite Heq.
Qed.

(** With an engine that answers, [run] returns the answer. *)
Lemma run_returns_answer_or_fallback_witness :
  (value (exec Demo.answering (run Demo.built) Demo.built_heap)).2
  = Returns (VStr "Ada, Grace").
Proof.
  refine (proj1 (run_returns_answer_or_fallback Demo.answering Demo.built
                   (_create_graph Demo.built) Demo.built_heap
                   {[ "answer" := VStr "Ada, Grace"; "results" := VRef 2 ]}
                   (VStr "info") _ _ _) (VStr "Ada, Grace") _); reflexivity.
Defined.

(** C1 as stated fails in the direction "the fallback text is returned
    only if the key is absent": the engine [Demo.echoing] returns a final
    state in which ["answer"] is present, bound to the text
    ["No answer found."], and [run] returns that text. *)
Lemma run_fallback_although_answer_present :
  let fs : gmap string val := {[ "answer" := VStr "No answer found." ]} in
  Demo.echoing (_create_graph Demo.built) (run_inputs Demo.built) Demo.built_heap
    = (Returns (fs, VStr "info"), Demo.built_heap)
  ∧ fs !! "answer" = Some (VStr "No answer found.")
  ∧ (value (exec Demo.echoing (run Demo.built) Demo.built_heap)).2
    = Returns (VStr "No answer found.").
Proof. by repeat split. Qed.

(** With an engine whose final state has no ["answer"], [run] returns
    the fallback text. *)
Example run_fallback_when_absent :
  (value (exec Demo.silent (run Demo.built) Demo.built_heap)).2
  = Returns (VStr "No answer found.").
Proof. reflexivity. Qed.

(** ** What [run] hands to the engine *)

(** C2. For every prompt and source list given to the constructor, [run]
    calls the engine exactly once, in the store as it finds it, on the
    graph built at construction and with an input mapping of exactly two
    keys: ["user_prompt"], bound to the prompt, and ["jsons"], bound to
    the very list object the constructor was given. Neither the
    constructor nor [run] updates any object of the caller, so the
    elements of that list, and their order, are those the caller gave. *)
Theorem run_passes_prompt_and_sources (create_llm : heap → val → val) (e : engine)
    (h0 : heap) p src cfg sch h1 self (h : heap) :
  __init__ create_llm h0 p src cfg sch = Some (h1, self) →
  let inputs : gmap string val := {[ "user_prompt" := VStr p; "jsons" := src ]} in
  calls (exec e (run self) h)
    = [ {| call_graph := _create_graph self; call_inputs := inputs; call_heap := h |} ]
  ∧ dom inputs = {[ "user_prompt"; "jsons" ]}
  ∧ inputs !! "user_prompt" = Some (VStr p)
  ∧ inputs !! "jsons" = Some src
  ∧ (∀ l, l < length h0 → h1 !! l = h0 !! l)
  ∧ (∀ xs, list_items h0 src = Some xs → list_items h1 src = Some xs).
Proof.
  intros Hinit inputs.
  destruct (init_inv _ _ _ _ _ _ _ _ Hinit) as (items & hc & cc & cs & _ & E1 & E2 & ->).
  assert (∀ l, l < length h0 → h1 !! l = h0 !! l) as Hold.
  { intros l Hl. apply prefix_lookup; [|done].
    eapply prefix_trans; [by eapply deepcopy_prefix | by eapply deepcopy_prefix]. }
  rewrite exec_run. split; [done|]. split.
  { subst inputs. rewrite dom_insert_L, dom_singleton_L. done. }
  split; [done|]. split; [done|]. split; [done|].
  intros xs. destruct src as [|b|z|s|name|l]; try done. simpl.
  destruct (h0 !! l) as [c|] eqn:Hl; [|done].
  by rewrite Hold, Hl by (by eapply lookup_lt_Some).
Qed.

(** The demonstration construction, run against an engine that appends
    to the list it is given: the call records the list as it was. *)
Lemma run_passes_prompt_and_sources_witness :
  calls (exec Demo.answering (run Demo.built) Demo.built_heap)
  = [ {| call_graph := _create_graph Demo.built;
         call_inputs := {[ "user_prompt" := VStr Demo.the_prompt; "jsons" := Demo.the_source ]};
         call_heap := Demo.built_heap |} ]
  ∧ list_items Demo.built_heap Demo.the_source
    = Some [VStr "inputs/first.json"; VStr "inputs/second.json"].
Proof.
  destruct (run_passes_prompt_and_sources Demo.handle_llm Demo.answering
              Demo.caller_heap Demo.the_prompt Demo.the_source Demo.the_config
              Demo.the_schema Demo.built_heap Demo.built Demo.built_heap)
    as (Hcall & _ & _ & _ & _ & Hlist).
  - vm_compute. reflexivity.
  - split; [exact Hcall|]. apply Hlist. reflexivity.
Defined.

(** ** Errors of the engine *)

(** C6. When the engine raises, [run] raises the same exception: the
    engine has been called exactly once (no retry), the instance is as it
    was (no result is recorded, no fallback answer is produced), and the
    store is as the engine left it. *)
Theorem run_propagates_engine_error (e : engine) self g (h : heap) ex h' :
  graph self = Some g →
  e g (run_inputs self) h = (Raises ex, h') →
  exec e (run self) h
  = {| value := (self, Raises ex);
       final_heap := h';
       calls := [ {| call_graph := g; call_inputs := run_inputs self; call_heap := h |} ] |}.
Proof. intros Hg He. rewrite exec_run, Hg. by rewrite He. Qed.

Lemma run_propagates_engine_error_witness :
  exec Demo.failing (run Demo.built) Demo.built_heap
  = {| value := (Demo.built, Raises (Exception "ValueError" "no model"));
       final_heap := Demo.built_heap;
       calls := [ {| call_graph := _create_graph Demo.built;
                     call_inputs := run_inputs Demo.built;
                     call_heap := Demo.built_heap |} ] |}.
Proof.
  apply (run_propagates_engine_error Demo.failing Demo.built (_create_graph Demo.built)
           Demo.built_heap (Exception "ValueError" "no model") Demo.built_heap);
    reflexivity.
Defined.

(** ** What [run] changes *)

(** C9. Whatever the engine does, after [run] every attribute of the
    instance other than [final_state] and [execution_info] is what it was
    before; those two hold the pair the engine returned when it returned
    one, and are unchanged otherwise. [run] itself updates no object: the
    store it leaves is the one the engine left. *)
Theorem run_frame (e : engine) self (h : heap) :
  let r := exec e (run self) h in
  let self' := (value r).1 in
  class_name self' = class_name self
  ∧ prompt self' = prompt self
  ∧ source self' = source self
  ∧ config self' = config self
  ∧ schema self' = schema self
  ∧ llm_model self' = llm_model self
  ∧ max_results self' = max_results self
  ∧ copy_config self' = copy_config self
  ∧ copy_schema self' = copy_schema self
  ∧ graph self' = graph self
  ∧ match graph self with
    | None =>
        final_state self' = final_state self
        ∧ execution_info self' = execution_info self
        ∧ final_heap r = h
    | Some g =>
        match e g (run_inputs self) h with
        | (Returns (fs, info), h') =>
            final_state self' = Some fs ∧ execution_info self' = Some info
            ∧ final_heap r = h'
        | (Raises _, h') =>
            final_state self' = final_state self
            ∧ execution_info self' = execution_info self
            ∧ final_heap r = h'
        end
    end.
Proof.
  intros r self'. subst r self'. rewrite exec_run.
  destruct (graph self) as [g|] eqn:Hg; simpl; [|by rewrite Hg].
  destruct (e g (run_inputs self) h) as [[[fs info]|ex] h']; simpl;
    rewrite ?Hg; by repeat split.
Qed.

(** ** The graph *)

(** C3. Whenever the constructor returns, the graph of the instance is
    the one [_create_graph] builds: exactly two nodes, a
    [GraphIteratorNode] followed by a [MergeAnswersNode], exactly one
    edge, from the former to the latter, the former as entry point, and
    the class name ["JSONScraperMultiGraph"] as graph name. *)
Theorem create_graph_two_nodes (create_llm : heap → val → val)
    (h0 : heap) p src cfg sch h1 self :
  __init__ create_llm h0 p src cfg sch = Some (h1, self) →
  graph self = Some (_create_graph self)
  ∧ ∃ it mg,
      nodes (_create_graph self) = [it; mg]
      ∧ is_iterator it = true ∧ is_merge mg = true ∧ it ≠ mg
      ∧ edges (_create_graph self) = [(it, mg)]
      ∧ entry_point (_create_graph self) = it
      ∧ graph_name (_create_graph self) = "JSONScraperMultiGraph".
Proof.
  intros Hinit.
  destruct (init_inv _ _ _ _ _ _ _ _ Hinit) as (items & hc & cc & cs & _ & _ & _ & ->).
  split; [done|]. eexists _, _. by repeat split.
Qed.

Lemma create_graph_two_nodes_witness :
  graph Demo.built = Some (_create_graph Demo.built)
  ∧ ∃ it mg,
      nodes (_create_graph Demo.built) = [it; mg]
      ∧ is_iterator it = true ∧ is_merge mg = true ∧ it ≠ mg
      ∧ edges (_create_graph Demo.built) = [(it, mg)]
      ∧ entry_point (_create_graph Demo.built) = it
      ∧ graph_name (_create_graph Demo.built) = "JSONScraperMultiGraph".
Proof.
  apply (create_graph_two_nodes Demo.handle_llm Demo.caller_heap Demo.the_prompt
           Demo.the_source Demo.the_config Demo.the_schema Demo.built_heap Demo.built).
  vm_compute. reflexivity.
Defined.

(** C5. In the graph [_create_graph] builds, the first node is the
    iterator node and the second the merge node. The iterator node reads
    the keys ["user_prompt"] and ["jsons"] (the two keys [run] supplies)
    and writes the single key ["results"]; its sub-pipeline is the class
    [JSONScraperGraph]; the merge node reads ["user_prompt"] and
    ["results"] and writes the single key ["answer"] (the key [run] reads).
    The iterator is the entry point and the only edge leads from it to the
    merge node, so every key the merge node reads is supplied by [run] or
    written by the iterator before it. Executed by the reference engine
    on the inputs of [run], the graph therefore hands the prompt and each
    source, one by one, to [JSONScraperGraph] configured with
    [copy_config] and [copy_schema], collects the per-document answers
    under ["results"], and merges exactly those answers, in the order of
    the sources, into the value stored under ["answer"], which is what
    [run] returns. *)
Theorem create_graph_dataflow self :
  ∃ it mg,
    nodes (_create_graph self) = [it; mg]
    ∧ is_iterator it = true
    ∧ is_merge mg = true
    ∧ entry_point (_create_graph self) = it
    ∧ edges (_create_graph self) = [(it, mg)]
    ∧ node_input it = "user_prompt & jsons"
    ∧ input_keys it = ["user_prompt"; "jsons"]
    ∧ node_output it = ["results"]
    ∧ node_config it !! "graph_instance" = Some (VClass "JSONScraperGraph")
    ∧ node_input mg = "user_prompt & results"
    ∧ input_keys mg = ["user_prompt"; "results"]
    ∧ node_output mg = ["answer"]
    ∧ dom (run_inputs self) = list_to_set (input_keys it)
    ∧ (∀ k, k ∈ input_keys mg → k ∈ dom (run_inputs self) ∨ k ∈ node_output it)
    ∧ (∀ fs v, fs !! "answer" = Some v → answer_of fs = v)
    ∧ (∀ (sub_pipeline : string → val → val → val → val → heap → val)
         (merge_answers : val → val → val → list val → heap → val)
         (h : heap) docs,
         list_items h (source self) = Some docs →
         let answers :=
           (λ doc, sub_pipeline "JSONScraperGraph" (copy_config self) (copy_schema self)
                     (VStr (prompt self)) doc h) <$> docs in
         let h' := h ++ [CList answers] in
         let final :=
           merge_answers (llm_model self) (copy_schema self) (VStr (prompt self))
             answers h' in
         Reference.execute sub_pipeline merge_answers
           (_create_graph self) (run_inputs self) h
         = (Returns (<["answer" := final]>
                       (<["results" := VRef (length h)]> (run_inputs self)), VNone), h')
         ∧ (graph self = Some (_create_graph self) →
            (value (exec (Reference.execute sub_pipeline merge_answers) (run self) h)).2
            = Returns final)).
Proof.
  eexists _, _. do 12 (split; [reflexivity|]).
  split; [|split; [|split; [by unfold answer_of; intros fs v ->|]]].
  - unfold run_inputs. rewrite dom_insert_L, dom_singleton_L. set_solver.
  - intros k Hk. change (input_keys _) with ["user_prompt"; "results"] in Hk.
    change (node_output _) with ["results"].
    apply elem_of_cons in Hk as [->|Hk]; [left | by right].
    unfold run_inputs. rewrite dom_insert_L. apply elem_of_union_l.
    by apply elem_of_singleton.
  - intros sub_pipeline merge_answers h docs Hdocs answers h' final.
    pose proof (reference_execute_create_graph sub_pipeline merge_answers
                  self h docs Hdocs) as Hexec.
    split; [exact Hexec|]. intros Hg. rewrite exec_run, Hg. simpl.
    rewrite Hexec. simpl. unfold answer_of. by rewrite lookup_insert_eq.
Qed.

(** On the demonstration, with a sub-pipeline that names the document
    it is given and a merge that joins the answers: [run] returns the two
    per-document answers, joined, in the order of the sources. *)
Lemma create_graph_dataflow_witness :
  (value (exec (Reference.execute Demo.answer_document Demo.join_answers)
            (run Demo.built) Demo.built_heap)).2
  = Returns (VStr "JSONScraperGraph on inputs/first.json; JSONScraperGraph on inputs/second.json").
Proof.
  destruct (create_graph_dataflow Demo.built)
    as (it & mg & _ & _ & _ & _ & _ & _ & _ & _ & _ & _ & _ & _ & _ & _ & _ & Hengine).
  destruct (Hengine Demo.answer_document Demo.join_answers Demo.built_heap
              [VStr "inputs/first.json"; VStr "inputs/second.json"] eq_refl)
    as [_ Hrun].
  rewrite Hrun by reflexivity. reflexivity.
Defined.

(** ** The attributes set by the constructor *)

(** C7. Whenever the constructor returns, the configuration is a
    dictionary of the caller's store, and [max_results] is the value that
    dictionary holds under ["max_results"] when it has an entry with
    that key, and [3] when it has none; it is the entry of the original
    dictionary itself (on a well-formed store it names nothing created
    by the copies); and neither [_create_graph] nor [run] reads it:
    changing it changes neither the graph built, nor what [run] passes to
    the engine, returns and records. *)
Theorem init_max_results (create_llm : heap → val → val)
    (h0 : heap) p src cfg sch h1 self :
  __init__ create_llm h0 p src cfg sch = Some (h1, self) →
  (∃ l items, cfg = VRef l ∧ h0 !! l = Some (CDict items)
     ∧ (∀ before v after,
          items = before ++ ("max_results", v) :: after →
          "max_results" ∉ before.*1 → max_results self = v)
     ∧ ("max_results" ∉ items.*1 → max_results self = VInt 3))
  ∧ (heap_ok h0 → val_ok (length h0) (max_results self))
  ∧ (∀ v, _create_graph (set_max_results v self) = _create_graph self)
  ∧ (∀ v (e : engine) (h : heap),
       let r := exec e (run self) h in
       let r' := exec e (run (set_max_results v self)) h in
       (value r').1 = set_max_results v (value r).1
       ∧ (value r').2 = (value r).2
       ∧ final_heap r' = final_heap r
       ∧ calls r' = calls r).
Proof.
  intros Hinit.
  destruct (init_inv _ _ _ _ _ _ _ _ Hinit) as (items & hc & cc & cs & Hitems & _ & _ & ->).
  destruct (dict_items_inv _ _ _ Hitems) as (l & -> & Hl).
  split; [|split; [|split; [done|]]].
  - exists l, items. split; [done|]. split; [done|]. simpl. split.
    + intros before v after -> Hk. by rewrite assoc_first.
    + intros Hk. by rewrite assoc_absent.
  - intros Hok. simpl. destruct (assoc "max_results" items) as [v|] eqn:E; [|done].
    simpl. apply assoc_children in E.
    pose proof (Hok l _ Hl) as Hkids. rewrite Forall_forall in Hkids. by apply Hkids.
  - intros v e h r r'. subst r r'. rewrite !exec_run. simpl.
    by destruct (e _ _ h) as [[[fs info]|ex] h'].
Qed.

(** The demonstration instance is what the constructor returns for a
    configuration that holds [5] under ["max_results"], after the entry
    ["llm"] and before the entry ["verbose"]: its [max_results] is [5]. *)
Lemma init_max_results_witness :
  __init__ Demo.handle_llm Demo.caller_heap Demo.the_prompt Demo.the_source
    Demo.the_config Demo.the_schema = Some (Demo.built_heap, Demo.built)
  ∧ max_results Demo.built = VInt 5.
Proof.
  assert (__init__ Demo.handle_llm Demo.caller_heap Demo.the_prompt Demo.the_source
            Demo.the_config Demo.the_schema = Some (Demo.built_heap, Demo.built)) as Hinit.
  { vm_compute. reflexivity. }
  split; [exact Hinit|].
  destruct (init_max_results Demo.handle_llm Demo.caller_heap Demo.the_prompt
              Demo.the_source Demo.the_config Demo.the_schema Demo.built_heap Demo.built
              Hinit)
    as [(l & items & Hcfg & Hl & Hpresent & _) _].
  unfold Demo.the_config in Hcfg. injection Hcfg as <-.
  vm_compute in Hl. injection Hl as <-.
  apply (Hpresent [("llm", VRef 1)] (VInt 5) [("verbose", VBool false)]); [reflexivity|].
  intros Hin. apply list_elem_of_singleton in Hin. discriminate Hin.
Defined.

(** A configuration without the key: [max_results] is [3]. *)
Example init_max_results_default :
  (max_results ∘ snd) <$>
    __init__ Demo.handle_llm Demo.bare_heap Demo.the_prompt (VRef 1) (VRef 0) VNone
  = Some (VInt 3).
Proof. vm_compute. reflexivity. Qed.

(** ** The two copies made by the constructor *)

(** What the two deep copies of the constructor amount to together. *)
Lemma init_copies (create_llm : heap → val → val) (h0 : heap) p src cfg sch items :
  heap_ok h0 → dict_items h0 cfg = Some items → val_ok (length h0) sch →
  ∃ h' self,
    __init__ create_llm h0 p src cfg sch = Some (h', self)
    ∧ take (length h0) h' = h0
    ∧ (∀ l, reach h' (copy_config self) l ∨ reach h' (copy_schema self) l →
            length h0 ≤ l < length h')
    ∧ (∀ l, reach h' cfg l ∨ reach h' sch l → l < length h0)
    ∧ (∀ h2 : heap, (∀ l, length h0 ≤ l < length h' → h2 !! l = h' !! l) →
         struct_eq h2 (copy_config self) h0 cfg
         ∧ struct_eq h2 (copy_schema self) h0 sch).
Proof.
  intros Hok Hitems Hsch.
  destruct (init_total create_llm h0 p src cfg sch items Hok Hitems Hsch)
    as (h1 & cc & h' & cs & D1 & D2 & Hinit).
  pose proof (dict_items_ok _ _ _ Hitems) as Hcfg.
  pose proof (prefix_length _ _ (dc_old _ _ _ _ D1)) as Hlen1.
  pose proof (prefix_length _ _ (dc_old _ _ _ _ D2)) as Hlen2.
  pose proof (prefix_trans _ _ _ (dc_old _ _ _ _ D1) (dc_old _ _ _ _ D2)) as Hold.
  destruct (dc_ok _ _ _ _ D1) as [Hok1 Hcc].
  eexists h', _. split; [exact Hinit|]. simpl. split; [done|]. split; [|split].
  - intros l [Hr|Hr].
    + apply (reach_prefix h1 h') in Hr; [|done|apply D2|done].
      apply (dc_new _ _ _ _ D1) in Hr. lia.
    + apply (dc_new _ _ _ _ D2) in Hr. lia.
  - intros l [Hr|Hr]; apply (reach_prefix h0 h') in Hr; try done;
      by apply (reach_old h0) in Hr.
  - intros h2 Hsame. split.
    + apply (dc_same _ _ _ _ D1). intros l Hl.
      rewrite Hsame by lia. apply prefix_lookup; [apply D2|lia].
    + intros depth. rewrite (dc_same _ _ _ _ D2 h2) by (intros l Hl; apply Hsame; lia).
      apply snapshot_prefix; [done|apply D1|done].
Qed.

(** C4. On a well-formed store, for every configuration dictionary and
    every schema ([None] included), the constructor returns and leaves
    the caller's objects as they were; [copy_config] has the structure of
    the configuration and [copy_schema] that of the schema; the objects
    they give access to are all new, those the caller's arguments give
    access to are all old, so the two share none; and whatever is later
    done to the caller's objects (updating any object the configuration
    reaches in particular), the two copies keep the structure the
    arguments had at construction. *)
Theorem init_deep_copies (create_llm : heap → val → val) (h0 : heap) p src cfg sch items :
  heap_ok h0 → dict_items h0 cfg = Some items → val_ok (length h0) sch →
  ∃ h' self,
    __init__ create_llm h0 p src cfg sch = Some (h', self)
    ∧ take (length h0) h' = h0
    ∧ struct_eq h' (copy_config self) h0 cfg
    ∧ struct_eq h' (copy_schema self) h0 sch
    ∧ (∀ l, reach h' (copy_config self) l ∨ reach h' (copy_schema self) l →
            ¬ reach h' cfg l ∧ ¬ reach h' sch l)
    ∧ (∀ l c, reach h' cfg l ∨ reach h' sch l →
              struct_eq (store h' l c) (copy_config self) h0 cfg
              ∧ struct_eq (store h' l c) (copy_schema self) h0 sch)
    ∧ (∀ h2 : heap, (∀ l, length h0 ≤ l < length h' → h2 !! l = h' !! l) →
         struct_eq h2 (copy_config self) h0 cfg
         ∧ struct_eq h2 (copy_schema self) h0 sch).
Proof.
  intros Hok Hitems Hsch.
  destruct (init_copies create_llm h0 p src cfg sch items Hok Hitems Hsch)
    as (h' & self & Hinit & Hold & Hnew & Hcaller & Hsame).
  exists h', self. split; [done|]. split; [done|].
  split; [by apply Hsame|]. split; [by apply Hsame|]. split; [|split; [|done]].
  - intros l Hcopy. apply Hnew in Hcopy.
    split; intros Hr; [assert (l < length h0) by (apply Hcaller; by left)
                      |assert (l < length h0) by (apply Hcaller; by right)]; lia.
  - intros l c Hr. apply Hcaller in Hr. apply Hsame. intros l' Hl'.
    unfold store. apply list_lookup_insert_ne. lia.
Qed.

Lemma init_deep_copies_witness :
  ∃ h' self,
    __init__ Demo.handle_llm Demo.caller_heap Demo.the_prompt Demo.the_source
      Demo.the_config Demo.the_schema = Some (h', self)
    ∧ take (length Demo.caller_heap) h' = Demo.caller_heap
    ∧ struct_eq h' (copy_config self) Demo.caller_heap Demo.the_config
    ∧ struct_eq h' (copy_schema self) Demo.caller_heap Demo.the_schema
    ∧ (∀ l, reach h' (copy_config self) l ∨ reach h' (copy_schema self) l →
            ¬ reach h' Demo.the_config l ∧ ¬ reach h' Demo.the_schema l)
    ∧ (∀ l c, reach h' Demo.the_config l ∨ reach h' Demo.the_schema l →
              struct_eq (store h' l c) (copy_config self) Demo.caller_heap Demo.the_config
              ∧ struct_eq (store h' l c) (copy_schema self) Demo.caller_heap Demo.the_schema)
    ∧ (∀ h2 : heap,
         (∀ l, length Demo.caller_heap ≤ l < length h' → h2 !! l = h' !! l) →
         struct_eq h2 (copy_config self) Demo.caller_heap Demo.the_config
         ∧ struct_eq h2 (copy_schema self) Demo.caller_heap Demo.the_schema).
Proof.
  apply (init_deep_copies Demo.handle_llm Demo.caller_heap Demo.the_prompt
           Demo.the_source Demo.the_config Demo.the_schema
           [("llm", VRef 1); ("max_results", VInt 5); ("verbose", VBool false)]).
  - apply heap_okb_ok. vm_compute. reflexivity.
  - vm_compute. reflexivity.
  - simpl. lia.
Defined.

(** The same on the demonstration. After construction the caller runs
    [config["llm"]["model"] = "other"]: the copy still has the model name
    given at construction, the caller's own configuration does not. The
    copy is made of the objects 4 and 5, the configuration of 0 and 1. *)
Example copy_config_survives_mutation :
  ∃ h, dict_setitem Demo.built_heap 1 "model" (VStr "other") = Some h
       ∧ snapshot 2 h (copy_config Demo.built) = snapshot 2 Demo.caller_heap Demo.the_config
       ∧ snapshot 2 h Demo.the_config ≠ snapshot 2 Demo.caller_heap Demo.the_config
       ∧ reachable 2 h (copy_config Demo.built) = [4; 5]
       ∧ reachable 2 h Demo.the_config = [0; 1].
Proof.
  eexists. split; [reflexivity|]. split; [reflexivity|].
  split; [|by split]. vm_compute. discriminate.
Qed.

(** ** What the nodes are configured from *)




(* ===================================================================== *)
(** * Part IV: further properties of the three methods *)
(* ===================================================================== *)

(** ** More on finished copies *)

(** What [copy.deepcopy] returns is the renaming of its argument by the
    memo it ends with. *)
Lemma deepcopy_renames (h0 : heap) (v : val) :
  heap_ok h0 → val_ok (length h0) v →
  ∃ h' m, deepcopy h0 v = Some (h', rename m v)
          ∧ copy_inv h0 (λ _, False) h' m ∧ covered m v.
Proof.
  intros Hok Hv.
  destruct (deepcopy_memo_total h0 Hok (length h0) _ h0 ∅ v (copy_inv_start h0) Hv)
    as (h' & m & E & Hinv & _ & Hcov); [lia|].
  exists h', m. unfold deepcopy. by rewrite E.
Qed.

Lemma rename_inj (h0 h' : heap) (m : memo) x y :
  copy_inv h0 (λ _, False) h' m → covered m x → covered m y →
  rename m x = rename m y → x = y.
Proof.
  intros Hinv Hx Hy.
  destruct x as [| | | | |lx], y as [| | | | |ly]; try done;
    try (by simpl; destruct (m !! _)).
  destruct Hx as [lx' Hx], Hy as [ly' Hy]. simpl. rewrite Hx, Hy. simpl.
  intros [= <-]. f_equal. by eapply (inv_inj _ _ _ _ Hinv).
Qed.

Lemma follow_renamed (h0 h' : heap) (m : memo) :
  copy_inv h0 (λ _, False) h' m →
  ∀ path v, covered m v →
    follow h' (rename m v) path = rename m <$> follow h0 v path
    ∧ ∀ x, follow h0 v path = Some x → covered m x.
Proof.
  intros Hinv. induction path as [|i path IH]; intros v Hv.
  - split; [done|]. by intros x [= <-].
  - destruct v as [|b|z|s|name|l]; try done.
    destruct Hv as [l' Hl]. simpl. rewrite Hl. simpl.
    destruct (finished_cell h0 h' m Hinv l l' Hl) as (c & Hc & Hcov & Hcell).
    rewrite Hcell, Hc. simpl. rewrite cell_children_map, list_lookup_fmap.
    destruct (cell_children c !! i) as [x|] eqn:Hx; [|done]. simpl.
    apply IH. rewrite Forall_lookup in Hcov. by eapply Hcov.
Qed.

Lemma follow_prefix (h0 h : heap) :
  heap_ok h0 → take (length h0) h = h0 →
  ∀ path v, val_ok (length h0) v → follow h v path = follow h0 v path.
Proof.
  intros Hok Hp. induction path as [|i path IH]; intros v Hv; [done|].
  destruct v as [|b|z|s|name|l]; try done. simpl in *.
  rewrite (prefix_lookup h0 h l) by done.
  destruct (h0 !! l) as [c|] eqn:Hc; [|done]. simpl.
  destruct (cell_children c !! i) as [x|] eqn:Hx; [|done]. simpl.
  apply IH. pose proof (Hok l c Hc) as Hkids. rewrite Forall_lookup in Hkids.
  by eapply Hkids.
Qed.

(** Two paths meet in a finished copy exactly when they meet in the
    original. *)
Lemma follow_renamed_iff (h0 h' : heap) (m : memo) v path1 path2 :
  copy_inv h0 (λ _, False) h' m → covered m v →
  follow h' (rename m v) path1 = follow h' (rename m v) path2
  ↔ follow h0 v path1 = follow h0 v path2.
Proof.
  intros Hinv Hv.
  destruct (follow_renamed h0 h' m Hinv path1 v Hv) as [-> Hc1].
  destruct (follow_renamed h0 h' m Hinv path2 v Hv) as [-> Hc2].
  split; [|by intros ->].
  destruct (follow h0 v path1) as [x|], (follow h0 v path2) as [y|]; try done.
  simpl. intros [= E]. f_equal. eapply rename_inj; eauto.
Qed.

(** The constructor, with the memos of its two copies in view. *)
Lemma init_renames (create_llm : heap → val → val) (h0 : heap) p src cfg sch items :
  heap_ok h0 → dict_items h0 cfg = Some items → val_ok (length h0) sch →
  ∃ h1 m1 h' m2,
    copy_inv h0 (λ _, False) h1 m1 ∧ covered m1 cfg
    ∧ copy_inv h1 (λ _, False) h' m2 ∧ covered m2 sch
    ∧ heap_ok h1
    ∧ __init__ create_llm h0 p src cfg sch =
        Some (h', AbstractGraph__init__ create_llm "JSONScraperMultiGraph"
                    (default (VInt 3) (assoc "max_results" items))
                    (rename m1 cfg) (rename m2 sch) h' p cfg src sch).
Proof.
  intros Hok Hitems Hsch.
  destruct (deepcopy_renames h0 cfg Hok) as (h1 & m1 & E1 & Hinv1 & Hcov1).
  { by eapply dict_items_ok. }
  assert (heap_ok h1) as Hok1 by (by eapply finished_heap_ok).
  destruct (deepcopy_renames h1 sch Hok1) as (h' & m2 & E2 & Hinv2 & Hcov2).
  { eapply val_ok_mono; [|done]. apply prefix_length, Hinv1. }
  exists h1, m1, h', m2. do 5 (split; [done|]).
  unfold __init__, safe_deepcopy, dict_get. rewrite Hitems. simpl.
  rewrite E1. simpl. by rewrite E2.
Qed.

(** ** When the constructor returns *)



(** Given the list of sources for configuration, the constructor raises. *)
Example init_raises_on_a_list :
  __init__ Demo.handle_llm Demo.caller_heap Demo.the_prompt
    Demo.the_source Demo.the_source Demo.the_schema = None.
Proof. reflexivity. Qed.

(** X2. When the schema is [None] (the default of the parameter) or any
    other value without identity, such as a class, the constructor
    creates no object for it: [copy_schema] is the schema itself, both
    nodes are given it, and the store the constructor leaves is the one
    the copy of the configuration left. *)
Theorem init_immutable_schema (create_llm : heap → val → val)
    (h0 : heap) p src cfg sch h' self :
  immutable sch →
  __init__ create_llm h0 p src cfg sch = Some (h', self) →
  copy_schema self = sch
  ∧ safe_deepcopy h0 cfg = Some (h', copy_config self)
  ∧ ∃ g it mg,
      graph self = Some g ∧ nodes g = [it; mg]
      ∧ node_schema it = Some sch
      ∧ node_config mg !! "schema" = Some sch.
Proof.
  intros Hsch Hinit.
  destruct (init_inv _ _ _ _ _ _ _ _ Hinit) as (items & h1 & cc & cs & _ & E1 & E2 & ->).
  rewrite (deepcopy_immutable h1 sch Hsch) in E2. injection E2 as -> ->.
  split; [done|]. split; [done|]. eexists _, _, _. by repeat split.
Qed.

Lemma init_immutable_schema_witness :
  ∃ h' self,
    __init__ Demo.handle_llm Demo.bare_heap Demo.the_prompt (VRef 1) (VRef 0) VNone
      = Some (h', self)
    ∧ length h' = 3
    ∧ copy_schema self = VNone
    ∧ safe_deepcopy Demo.bare_heap (VRef 0) = Some (h', copy_config self).
Proof.
  eexists _, _. split; [vm_compute; reflexivity|]. split; [reflexivity|].
  refine (let H := init_immutable_schema Demo.handle_llm Demo.bare_heap
                     Demo.the_prompt (VRef 1) (VRef 0) VNone _ _ I _ in
          conj (proj1 H) (proj1 (proj2 H))).
  vm_compute. reflexivity.
Defined.

(** ** Running again *)

(** X3. [run] reads nothing an earlier run has left on the instance: a
    second run calls the engine as a run of the untouched instance would
    in the same store, and returns or raises the same. When it returns,
    the instance is what that run alone would have made it (the earlier
    results are replaced, not merged); when it raises, the instance
    keeps the results of the earlier run. *)
Theorem run_again (e1 e2 : engine) self (h : heap) :
  let r1 := exec e1 (run self) h in
  let self1 := (value r1).1 in
  let r2 := exec e2 (run self1) (final_heap r1) in
  let alone := exec e2 (run self) (final_heap r1) in
  calls r2 = calls alone
  ∧ (value r2).2 = (value alone).2
  ∧ final_heap r2 = final_heap alone
  ∧ match (value r2).2 with
    | Returns _ => (value r2).1 = (value alone).1
    | Raises _ => (value r2).1 = self1
    end.
Proof.
  intros r1 self1 r2 alone. subst r1 self1 r2 alone. rewrite !exec_run.
  destruct (graph self) as [g|] eqn:Hg; simpl; [|by rewrite Hg].
  destruct (e1 g (run_inputs self) h) as [[[fs1 info1]|ex1] h1]; simpl;
    rewrite ?Hg; simpl;
    change (run_inputs (set_execution_info _ (set_final_state _ self)))
      with (run_inputs self);
    by destruct (e2 g (run_inputs self) h1) as [[[fs2 info2]|ex2] h2].
Qed.

(** An engine that fails once: the caller's second attempt succeeds, and
    the instance then holds the second result only. *)
Example run_after_failure :
  let r1 := exec Demo.flaky (run Demo.built) Demo.built_heap in
  let r2 := exec Demo.flaky (run (value r1).1) (final_heap r1) in
  (value r1).2 = Raises (Exception "TimeoutError" "model")
  ∧ final_state (value r1).1 = None
  ∧ (value r2).2 = Returns (VStr "Ada, Grace")
  ∧ execution_info (value r2).1 = Some (VStr "second").
Proof. by repeat split. Qed.

(** ** The two copies, side by side *)

(** X4. The constructor copies the configuration and the schema in two
    separate calls, each with a memo of its own: on a well-formed store
    no object of [copy_config] is an object of [copy_schema], even when
    the configuration holds the schema or shares objects with it. *)
Theorem copies_are_disjoint (create_llm : heap → val → val) (h0 : heap) p src cfg sch items :
  heap_ok h0 → dict_items h0 cfg = Some items → val_ok (length h0) sch →
  ∃ h' self,
    __init__ create_llm h0 p src cfg sch = Some (h', self)
    ∧ ∀ l, reach h' (copy_config self) l → ¬ reach h' (copy_schema self) l.
Proof.
  intros Hok Hitems Hsch.
  destruct (init_total create_llm h0 p src cfg sch items Hok Hitems Hsch)
    as (h1 & cc & h' & cs & D1 & D2 & Hinit).
  eexists h', _. split; [exact Hinit|]. simpl. intros l Hcc Hcs.
  destruct (dc_ok _ _ _ _ D1) as [Hok1 Hcc1].
  apply (reach_prefix h1 h') in Hcc; [|done|apply D2|done].
  apply (dc_new _ _ _ _ D1) in Hcc. apply (dc_new _ _ _ _ D2) in Hcs. lia.
Qed.

Lemma copies_are_disjoint_witness :
  ∃ h' self,
    __init__ Demo.handle_llm Demo.shared_heap Demo.the_prompt (VRef 3) (VRef 0) (VRef 2)
      = Some (h', self)
    ∧ ∀ l, reach h' (copy_config self) l → ¬ reach h' (copy_schema self) l.
Proof.
  apply (copies_are_disjoint Demo.handle_llm Demo.shared_heap Demo.the_prompt
           (VRef 3) (VRef 0) (VRef 2) Demo.shared_items).
  - apply heap_okb_ok. vm_compute. reflexivity.
  - reflexivity.
  - simpl. lia.
Defined.

(** On that store the configuration reaches the schema; its copy is
    made of the objects 4 to 6, the copy of the schema of 7 and 8. *)
Example copies_of_shared_objects :
  (λ '(h', self),
     (reachable 3 h' (VRef 0), reachable 2 h' (copy_config self),
      reachable 2 h' (copy_schema self)))
    <$> __init__ Demo.handle_llm Demo.shared_heap Demo.the_prompt (VRef 3) (VRef 0) (VRef 2)
  = Some ([0; 1; 1; 2; 2; 2; 1; 1], [4; 5; 5; 6; 6; 5], [7; 7; 7; 8; 8]).
Proof. vm_compute. reflexivity. Qed.

(** X6. Each copy reproduces the sharing of its original: on a
    well-formed store, two paths lead to the same thing in [copy_config]
    exactly when they do in the configuration, and likewise for
    [copy_schema] and the schema. An object named twice is copied once,
    a cycle is copied to a cycle, and distinct objects stay distinct. *)
Theorem copies_preserve_sharing (create_llm : heap → val → val) (h0 : heap)
    p src cfg sch items :
  heap_ok h0 → dict_items h0 cfg = Some items → val_ok (length h0) sch →
  ∃ h' self,
    __init__ create_llm h0 p src cfg sch = Some (h', self)
    ∧ ∀ path1 path2,
        (follow h' (copy_config self) path1 = follow h' (copy_config self) path2
         ↔ follow h0 cfg path1 = follow h0 cfg path2)
        ∧ (follow h' (copy_schema self) path1 = follow h' (copy_schema self) path2
           ↔ follow h0 sch path1 = follow h0 sch path2).
Proof.
  intros Hok Hitems Hsch.
  destruct (init_renames create_llm h0 p src cfg sch items Hok Hitems Hsch)
    as (h1 & m1 & h' & m2 & Hinv1 & Hcov1 & Hinv2 & Hcov2 & Hok1 & Hinit).
  eexists h', _. split; [exact Hinit|]. simpl. intros path1 path2.
  pose proof (inv_prefix _ _ _ _ Hinv1) as Hp1.
  pose proof (inv_prefix _ _ _ _ Hinv2) as Hp2.
  split.
  - rewrite !(follow_prefix h1 h' Hok1 Hp2) by (by eapply rename_in_range).
    by apply follow_renamed_iff.
  - rewrite <- !(follow_prefix h0 h1 Hok Hp1) by done.
    by apply follow_renamed_iff.
Qed.

Lemma copies_preserve_sharing_witness :
  ∃ h' self,
    __init__ Demo.handle_llm Demo.shared_heap Demo.the_prompt (VRef 3) (VRef 0) (VRef 2)
      = Some (h', self)
    ∧ ∀ path1 path2,
        (follow h' (copy_config self) path1 = follow h' (copy_config self) path2
         ↔ follow Demo.shared_heap (VRef 0) path1 = follow Demo.shared_heap (VRef 0) path2)
        ∧ (follow h' (copy_schema self) path1 = follow h' (copy_schema self) path2
           ↔ follow Demo.shared_heap (VRef 2) path1 = follow Demo.shared_heap (VRef 2) path2).
Proof.
  apply (copies_preserve_sharing Demo.handle_llm Demo.shared_heap Demo.the_prompt
           (VRef 3) (VRef 0) (VRef 2) Demo.shared_items).
  - apply heap_okb_ok. vm_compute. reflexivity.
  - reflexivity.
  - simpl. lia.
Defined.

(** In the copy of the demonstration configuration, ["llm"] and
    ["fallback_llm"] are one dictionary, as in the original, and the
    copied schema is its own ["parent"]. *)
Example copies_share_as_originals :
  (λ '(h', self),
     (follow h' (copy_config self) [0], follow h' (copy_config self) [1],
      copy_schema self, follow h' (copy_schema self) [0]))
    <$> __init__ Demo.handle_llm Demo.shared_heap Demo.the_prompt (VRef 3) (VRef 0) (VRef 2)
  = Some (Some (VRef 5), Some (VRef 5), VRef 7, Some (VRef 7)).
Proof. vm_compute. reflexivity. Qed.

(** ** From the constructor to the engine *)

(** X5. Constructor, graph and [run] together: on a well-formed store,
    whatever the caller does to its own objects between construction and
    [run], the engine is called once, with a graph whose iterator node
    holds under ["scraper_config"] a configuration that has, in the store
    the engine is given, the structure the caller's configuration had
    when the instance was built; and the schema given to both nodes has
    the structure the caller's schema had then. *)
Theorem engine_gets_configuration_as_built (create_llm : heap → val → val) (e : engine)
    (h0 : heap) p src cfg sch items :
  heap_ok h0 → dict_items h0 cfg = Some items → val_ok (length h0) sch →
  ∃ h' self,
    __init__ create_llm h0 p src cfg sch = Some (h', self)
    ∧ ∀ h : heap,
        (∀ l, length h0 ≤ l < length h' → h !! l = h' !! l) →
        ∃ c it mg scraper_config node_schema_value,
          calls (exec e (run self) h) = [c]
          ∧ call_heap c = h
          ∧ nodes (call_graph c) = [it; mg]
          ∧ node_config it !! "scraper_config" = Some scraper_config
          ∧ struct_eq (call_heap c) scraper_config h0 cfg
          ∧ node_schema it = Some node_schema_value
          ∧ node_config mg !! "schema" = Some node_schema_value
          ∧ struct_eq (call_heap c) node_schema_value h0 sch.
Proof.
  intros Hok Hitems Hsch.
  destruct (init_copies create_llm h0 p src cfg sch items Hok Hitems Hsch)
    as (h' & self & Hinit & Hold & Hnew & Hcaller & Hsame).
  exists h', self. split; [done|]. intros h Hh.
  destruct (init_inv _ _ _ _ _ _ _ _ Hinit) as (its & hc & cc & cs & _ & _ & _ & Hself).
  destruct (Hsame h Hh) as [Hcfg Hsc].
  rewrite exec_run. rewrite Hself in *. simpl in *.
  eexists _, _, _, _, _. split; [reflexivity|]. simpl. by repeat split.
Qed.

Lemma engine_gets_configuration_as_built_witness :
  ∃ h' self,
    __init__ Demo.handle_llm Demo.caller_heap Demo.the_prompt Demo.the_source
      Demo.the_config Demo.the_schema = Some (h', self)
    ∧ ∀ h : heap,
        (∀ l, length Demo.caller_heap ≤ l < length h' → h !! l = h' !! l) →
        ∃ c it mg scraper_config node_schema_value,
          calls (exec Demo.answering (run self) h) = [c]
          ∧ call_heap c = h
          ∧ nodes (call_graph c) = [it; mg]
          ∧ node_config it !! "scraper_config" = Some scraper_config
          ∧ struct_eq (call_heap c) scraper_config Demo.caller_heap Demo.the_config
          ∧ node_schema it = Some node_schema_value
          ∧ node_config mg !! "schema" = Some node_schema_value
          ∧ struct_eq (call_heap c) node_schema_value Demo.caller_heap Demo.the_schema.
Proof.
  apply (engine_gets_configuration_as_built Demo.handle_llm Demo.answering
           Demo.caller_heap Demo.the_prompt Demo.the_source Demo.the_config
           Demo.the_schema
           [("llm", VRef 1); ("max_results", VInt 5); ("verbose", VBool false)]).
  - apply heap_okb_ok. vm_compute. reflexivity.
  - reflexivity.
  - simpl. lia.
Defined.

(** ** What [run] reads *)

(** X7. [run] reads three attributes only: [prompt], [source] and
    [graph]. Two instances that agree on them make the same engine calls
    and return or raise the same in every store and against every engine,
    however they differ elsewhere; in particular [run] uses the graph built
    at construction and does not rebuild it from the current
    [copy_config], [copy_schema] or [llm_model]. *)
Theorem run_reads_prompt_source_graph (e : engine) s1 s2 (h : heap) :
  prompt s1 = prompt s2 → source s1 = source s2 → graph s1 = graph s2 →
  calls (exec e (run s1) h) = calls (exec e (run s2) h)
  ∧ (value (exec e (run s1) h)).2 = (value (exec e (run s2) h)).2
  ∧ final_heap (exec e (run s1) h) = final_heap (exec e (run s2) h).
Proof.
  intros Hp Hs Hg. rewrite !exec_run. unfold run_inputs. rewrite Hp, Hs, Hg.
  destruct (graph s2) as [g|]; [|done]. simpl.
  by destruct (e g _ h) as [[[fs info]|ex] h'].
Qed.

(** Rebinding [llm_model] after construction changes what
    [_create_graph] would build, not what [run] passes to the engine. *)
Lemma run_reads_prompt_source_graph_witness :
  let s2 := set_llm_model (VStr "another-handle") Demo.built in
  _create_graph s2 ≠ _create_graph Demo.built
  ∧ calls (exec Demo.answering (run Demo.built) Demo.built_heap)
    = calls (exec Demo.answering (run s2) Demo.built_heap)
  ∧ (value (exec Demo.answering (run Demo.built) Demo.built_heap)).2
    = (value (exec Demo.answering (run s2) Demo.built_heap)).2
  ∧ final_heap (exec Demo.answering (run Demo.built) Demo.built_heap)
    = final_heap (exec Demo.answering (run s2) Demo.built_heap).
Proof.
  split.
  - intros H. vm_compute in H. discriminate H.
  - apply (run_reads_prompt_source_graph Demo.answering Demo.built
             (set_llm_model (VStr "another-handle") Demo.built) Demo.built_heap);
      reflexivity.
Defined.
